(** * Kinetic typography player and script service: a shallow embedding

    The development follows [src/components/KineticTypographyPlayer.tsx]
    (styled-word parser, timeline builder, shrink-to-fit layout, frame
    renderer, capture pipeline) and the script service
    ([repairKoreanSentence], [generateAutopsyScript]).

    Conventions.
    - A JavaScript string is the list of its UTF-16 code units ([JS.str]).
    - A JavaScript number is an exact rational ([Q]); rounding of doubles is
      not modelled.  [Math.random()] is an explicit argument.
    - Optional values ([number | null], [string | undefined]) are [option]s
      and JavaScript truthiness is written out where the source relies on it.
    - Callbacks are recorded as the list of calls they receive. *)

From Stdlib Require Import List Bool Arith NArith ZArith QArith Qround Qabs Lia Lqa.
From Stdlib Require Import String Ascii Sorted.
From Equations Require Import Equations.
Import ListNotations.

(* ===================================================================== *)
(** ** JavaScript string primitives *)
(* ===================================================================== *)

Module JS.

Definition char := N.
Definition str := list char.

(** ASCII literals of the source, as code units. *)
Definition lit (s : string) : str :=
  List.map N_of_ascii (list_ascii_of_string s).

Definition str_eqb (a b : str) : bool :=
  if list_eq_dec N.eq_dec a b then true else false.

(** [arr.includes(x)] on an array of strings. *)
Definition includes (arr : list str) (x : str) : bool :=
  existsb (str_eqb x) arr.

(** White space and line terminators of ECMAScript: the class [\s] of
    regular expressions and the characters removed by [trim]. *)
Definition is_space (c : char) : bool :=
  ((9 <=? c) && (c <=? 13) || (c =? 32) || (c =? 160) || (c =? 5760)
   || (8192 <=? c) && (c <=? 8202) || (c =? 8232) || (c =? 8233)
   || (c =? 8239) || (c =? 8287) || (c =? 12288) || (c =? 65279))%N.

Fixpoint dropWhile (p : char -> bool) (s : str) : str :=
  match s with
  | [] => []
  | c :: t => if p c then dropWhile p t else s
  end.

Definition trimStart (s : str) : str := dropWhile is_space s.
Definition trimEnd (s : str) : str := rev (dropWhile is_space (rev s)).
Definition trim (s : str) : str := trimEnd (trimStart s).

(** [s.startsWith(c)] and [s.endsWith(c)] for a one-character [c]. *)
Definition startsWithChar (c : char) (s : str) : bool :=
  match s with
  | [] => false
  | x :: _ => (x =? c)%N
  end.

Definition endsWithChar (c : char) (s : str) : bool :=
  startsWithChar c (rev s).

(** [s.slice(0, -1)], [s.slice(1, -1)], [s.slice(-1)], [s.slice(-2, -1)]. *)
Definition dropLast (s : str) : str := removelast s.
Definition slice_1_m1 (s : str) : str := removelast (tl s).
Definition lastChar (s : str) : str :=
  match rev s with
  | [] => []
  | c :: _ => [c]
  end.
Definition secondLastChar (s : str) : str :=
  match rev s with
  | _ :: c :: _ => [c]
  | _ => []
  end.

(** Splitting at every character that satisfies [p]; with [p] the test
    for one separator character this is [s.split(sep)].  The result is
    never empty: the empty string splits into one empty piece. *)
Fixpoint split_on (p : char -> bool) (s : str) : list str :=
  match s with
  | [] => [[]]
  | c :: t =>
      if p c then [] :: split_on p t
      else match split_on p t with
           | [] => [[c]]
           | w :: ws => (c :: w) :: ws
           end
  end.

Definition nonempty (s : str) : bool :=
  match s with
  | [] => false
  | _ :: _ => true
  end.

(** [s.split(/\s+/).filter(w => w)]: splitting at runs of white space and
    splitting at each white-space character differ only by empty pieces,
    which the filter removes. *)
Definition words (s : str) : list str :=
  filter nonempty (split_on is_space s).

(** [arr.join(sep)]. *)
Fixpoint join (sep : str) (l : list str) : str :=
  match l with
  | [] => []
  | [w] => w
  | w :: rest => w ++ sep ++ join sep rest
  end.

(** Number of occurrences of a code unit: [(s.match(/c/g) || []).length]. *)
Definition count (c : char) (s : str) : nat :=
  List.length (filter (N.eqb c) s).

Definition star : char := 42%N.

End JS.

Import JS.

(* ===================================================================== *)
(** ** The player: data model and styled-word parser *)
(* ===================================================================== *)

Module Player.

Inductive TextStyleEffect := wiggle | glitch | pulse.

Record Style := mkStyle {
  color : option str;
  effect : option TextStyleEffect
}.

Record StyleSpan := mkSpan {
  text : str;
  style : Style
}.

Definition plainStyle : Style := mkStyle None None.

(** [WordToLayout] before timing is attached. *)
Record ParsedWord := mkParsed {
  cleanText : str;
  isHighlight : bool;
  spans : list StyleSpan
}.

(** [rawWord.replace(/^\*|\*$/g, '')]: the global replace removes a
    star at the start, and then a star at the end of what follows. *)
Definition stripLeadingStar (s : str) : str :=
  match s with
  | c :: t => if (c =? star)%N then t else s
  | [] => []
  end.

Definition stripTrailingStar (s : str) : str :=
  rev (stripLeadingStar (rev s)).

Definition stripStars (rawWord : str) : str :=
  stripTrailingStar (stripLeadingStar rawWord).

(** The greedy class-plus-delimiter of the directive regex: the longest
    run of characters different from [stop].  Since the run must be
    followed by [stop] itself, no shorter run can match. *)
Fixpoint run_until (stop : char) (s : str) : str * str :=
  match s with
  | [] => ([], [])
  | c :: t =>
      if (c =? stop)%N then ([], s)
      else let '(g, r) := run_until stop t in (c :: g, r)
  end.

Definition c_lbrack : char := 91%N.
Definition c_rbrack : char := 93%N.
Definition c_lparen : char := 40%N.
Definition c_rparen : char := 41%N.
Definition c_bar : char := 124%N.

(** One attempt of [/\[([^\]]+)\]\(([^)]+)\)/] at the head of [s]:
    the two groups and what follows the match. *)
Definition match_here (s : str) : option (str * str * str) :=
  match s with
  | c :: t =>
      if (c =? c_lbrack)%N then
        match run_until c_rbrack t with
        | ((_ :: _) as g1, _ :: p :: t2) =>
            if (p =? c_lparen)%N then
              match run_until c_rparen t2 with
              | ((_ :: _) as g2, _ :: rest) => Some (g1, g2, rest)
              | _ => None
              end
            else None
        | _ => None
        end
      else None
  | [] => None
  end.

(** [regex.exec] on the text from [lastIndex] on: the leftmost match,
    as (text skipped before the match, group 1, group 2, text after). *)
Fixpoint regex_exec (s : str) : option (str * str * str * str) :=
  match s with
  | [] => None
  | c :: t =>
      match match_here s with
      | Some (g1, g2, rest) => Some ([], g1, g2, rest)
      | None =>
          match regex_exec t with
          | Some (pre, g1, g2, rest) => Some (c :: pre, g1, g2, rest)
          | None => None
          end
      end
  end.

Definition effect_of (s : str) : option TextStyleEffect :=
  if str_eqb s (lit "wiggle") then Some wiggle
  else if str_eqb s (lit "glitch") then Some glitch
  else if str_eqb s (lit "pulse") then Some pulse
  else None.

(** [params.split('|').forEach(...)]: each part is an effect name or a
    colour, later parts overwrite earlier ones. *)
Definition parse_params (params : str) : Style :=
  fold_left
    (fun st part =>
       let trimmed := trim part in
       match effect_of trimmed with
       | Some e => mkStyle (color st) (Some e)
       | None => mkStyle (Some trimmed) (effect st)
       end)
    (split_on (N.eqb c_bar) params) plainStyle.

Lemma run_until_length stop s :
  (List.length (snd (run_until stop s)) <= List.length s)%nat.
Proof.
  induction s as [|c t IH]; simpl; [lia|].
  destruct (c =? stop)%N; simpl; [lia|].
  destruct (run_until stop t) as [g r]; simpl in *. lia.
Qed.

Lemma match_here_length s g1 g2 rest :
  match_here s = Some (g1, g2, rest) ->
  (List.length rest < List.length s)%nat.
Proof.
  destruct s as [|c t]; simpl; [discriminate|].
  destruct (c =? c_lbrack)%N; [|discriminate].
  pose proof (run_until_length c_rbrack t) as H1.
  destruct (run_until c_rbrack t) as [[|a g] [|b [|p t2]]]; try discriminate.
  destruct (p =? c_lparen)%N; [|discriminate].
  pose proof (run_until_length c_rparen t2) as H2.
  destruct (run_until c_rparen t2) as [[|a' g'] [|b' r']]; try discriminate.
  intros [= <- <- <-]. simpl in *. lia.
Qed.

Lemma regex_exec_length s pre g1 g2 rest :
  regex_exec s = Some (pre, g1, g2, rest) ->
  (List.length rest < List.length s)%nat.
Proof.
  revert pre; induction s as [|c t IH]; intros pre; [discriminate|].
  cbn [regex_exec].
  destruct (match_here (c :: t)) as [[[a b] r]|] eqn:E.
  - intros [= <- <- <- <-]. eapply match_here_length; eauto.
  - destruct (regex_exec t) as [[[[p a] b] r]|]; [|discriminate].
    intros [= <- <- <- <-]. specialize (IH _ eq_refl). simpl. lia.
Qed.

(** The [while ((match = regex.exec(textToParse)) !== null)] loop.  The
    argument [s] is the text from [lastIndex] on; the result carries the
    accumulated spans and clean text, and the text after the last match. *)
Equations? parse_loop (s : str) (acc : list StyleSpan) (clean : str)
  : list StyleSpan * str * str by wf (List.length s) lt :=
  parse_loop s acc clean with Equations.Prop.Logic.inspect (regex_exec s) => {
    | exist _ (Some (pre, g1, g2, rest)) _ =>
        let acc1 := if nonempty pre then acc ++ [mkSpan pre plainStyle] else acc in
        let clean1 := if nonempty pre then clean ++ pre else clean in
        parse_loop rest (acc1 ++ [mkSpan g1 (parse_params g2)]) (clean1 ++ g1);
    | exist _ None _ => (acc, clean, s) }.
Proof. eapply regex_exec_length; eauto. Qed.

Definition parseStyledWord (rawWord : str) : ParsedWord :=
  let isHighlight := startsWithChar star rawWord && endsWithChar star rawWord in
  let textToParse := stripStars rawWord in
  let '(spans0, clean0, remaining) := parse_loop textToParse [] [] in
  let spans1 := if nonempty remaining
                then spans0 ++ [mkSpan remaining plainStyle] else spans0 in
  let clean1 := if nonempty remaining then clean0 ++ remaining else clean0 in
  match spans1 with
  | [] => mkParsed textToParse isHighlight [mkSpan textToParse plainStyle]
  | _ :: _ => mkParsed clean1 isHighlight spans1
  end.

(* ------------------------------------------------------------------- *)
(** *** Numbers *)

Definition Qltb (a b : Q) : bool := negb (Qle_bool b a).
Definition Qleb (a b : Q) : bool := Qle_bool a b.
Definition Qmax (a b : Q) : Q := if Qltb a b then b else a.
Definition Qmin (a b : Q) : Q := if Qltb b a then b else a.
Definition ofNat (n : nat) : Q := inject_Z (Z.of_nat n).

(** Truthiness of a [number | null]: neither [null] nor zero. *)
Definition truthy (x : option Q) : bool :=
  match x with
  | Some q => negb (Qeq_bool q 0)
  | None => false
  end.

(** [Math.round]: the nearest integer, halves towards plus infinity. *)
Definition Math_round (x : Q) : Z := Qfloor (x + (1 # 2)).

(** [Math.trunc], and the remainder [a % b] of numbers, which takes the
    sign of the dividend. *)
Definition Qtrunc (x : Q) : Z := Z.quot (Qnum x) (Zpos (Qden x)).
Definition Qrem (a b : Q) : Q := a - b * inject_Z (Qtrunc (a / b)).

(** [arr.map((x, i) => f(x, i))]. *)
Fixpoint mapi_from {A B} (i : nat) (f : A -> nat -> B) (l : list A) : list B :=
  match l with
  | [] => []
  | x :: t => f x i :: mapi_from (S i) f t
  end.
Definition mapi {A B} (f : A -> nat -> B) (l : list A) : list B :=
  mapi_from 0 f l.

(* ------------------------------------------------------------------- *)
(** *** Timed words, segments, configuration *)

Record WordToLayout := mkWord {
  parsed : ParsedWord;
  absoluteStartTime : option Q;
  duration : option Q
}.

(** [word.absoluteStartTime ?? 0]. *)
Definition wordStartTime (w : WordToLayout) : Q :=
  match absoluteStartTime w with
  | Some t => t
  | None => 0
  end.

Record TranscriptSegment := mkSegment {
  seg_text : str;
  seg_start : Q;
  seg_end : Q
}.

Record FontConfig := mkConfig { size : Q; lineHeight : Q }.

Inductive FontSize := Small | Medium | Large.
Inductive FontFamily := Sans | Serif | Handwritten | Round | Dongle | Pen.
Inductive Animation := Typewriter | FadeZoom | DropIn.

Definition FONT_CONFIG (fs : FontSize) : FontConfig :=
  match fs with
  | Small => mkConfig 24 40
  | Medium => mkConfig 32 50
  | Large => mkConfig 40 60
  end.

(** The font-family compensation applied before any layout. *)
Definition scaledConfig (fs : FontSize) (ff : FontFamily) : FontConfig :=
  let config := FONT_CONFIG fs in
  match ff with
  | Dongle => mkConfig (size config * 2) (lineHeight config * (3 # 2))
  | Pen => mkConfig (size config * (3 # 2)) (lineHeight config * (6 # 5))
  | _ => config
  end.

Definition WORDS_PER_PAGE : nat := 5.
(** [SYNC_OFFSET] is zero: the visual time of a frame is its elapsed time. *)
Definition SYNC_OFFSET : Q := 0.
Definition FADE_DURATION : Q := 80.

(* ------------------------------------------------------------------- *)
(** *** Timeline builder: timestamped mode *)

(** Drift correction.  A division by a zero [lastSegmentEnd] yields an
    infinity in the source and [0] here; both fail the bounds test. *)
Definition timeScale (audioDuration : option Q)
    (transcriptSegments : list TranscriptSegment) : Q :=
  match audioDuration, rev transcriptSegments with
  | Some audio, lastSeg :: _ =>
      if truthy audioDuration then
        let lastSegmentEnd := seg_end lastSeg in
        if Qltb (1 # 2) (Qabs (audio - lastSegmentEnd)) then
          let potentialScale := audio / lastSegmentEnd in
          if Qltb (8 # 10) potentialScale && Qltb potentialScale (12 # 10)
          then potentialScale else 1
        else 1
      else 1
  | _, _ => 1
  end.

(** The timed words of one segment. *)
Definition segmentWords (scale : Q) (seg : TranscriptSegment)
  : list WordToLayout :=
  let adjustedStart := seg_start seg * scale in
  let adjustedEnd := seg_end seg * scale in
  let segmentDuration := (adjustedEnd - adjustedStart) * 1000 in
  let segWords := List.map parseStyledWord (words (seg_text seg)) in
  let timePerWord :=
    if (0 <? List.length segWords)%nat
    then segmentDuration / ofNat (List.length segWords) else 0 in
  let segmentStartTime := adjustedStart * 1000 in
  mapi (fun word i =>
          mkWord word (Some (segmentStartTime + ofNat i * timePerWord))
                 (Some timePerWord))
       segWords.

(* ------------------------------------------------------------------- *)
(** *** Timeline builder: paged mode *)

(** [arr.slice(a, b)] for [0 <= a <= b]. *)
Definition slice {A} (a b : nat) (l : list A) : list A :=
  firstn (b - a) (skipn a l).

(** [Math.ceil(n / sz)] for a positive [sz]. *)
Definition ceil_div (n sz : nat) : nat := ((n + sz - 1) / sz)%nat.

Definition chunk {A} (arr : list A) (sz : nat) : list (list A) :=
  List.map (fun i => slice (i * sz) (i * sz + sz) arr)
           (seq 0 (ceil_div (List.length arr) sz)).

Definition pagedTotalDuration (audioDuration : option Q) (nWords : nat) : Q :=
  match audioDuration with
  | Some audio =>
      if truthy audioDuration then audio * 1000
      else Qmax 5000 (ofNat nWords * 500)
  | None => Qmax 5000 (ofNat nWords * 500)
  end.

Definition pageDurationOf (totalDuration : Q) (nPages : nat) : Q :=
  if (0 <? nPages)%nat then totalDuration / ofNat nPages else totalDuration.

Definition pageWordsTimed (pageDuration : Q) (pageWords : list ParsedWord)
    (pageIndex : nat) : list WordToLayout :=
  let pageStartTime := ofNat pageIndex * pageDuration in
  let timePerWord :=
    if (0 <? List.length pageWords)%nat
    then (pageDuration * (9 # 10)) / ofNat (List.length pageWords) else 0 in
  mapi (fun word i =>
          mkWord word (Some (pageStartTime + ofNat i * timePerWord))
                 (Some timePerWord))
       pageWords.

(* ------------------------------------------------------------------- *)
(** *** Timeline builder: preview (ambient) mode *)

Definition endsWithLit (c : string) (s : str) : bool :=
  match lit c with
  | [x] => endsWithChar x s
  | _ => false
  end.

Definition defaultTypeSpeed : Q := 250.

Definition wordDelay (word : ParsedWord) : Q :=
  let t := cleanText word in
  if endsWithLit "." t || endsWithLit "!" t || endsWithLit "?" t
  then defaultTypeSpeed * (5 # 2)
  else if endsWithLit "," t then defaultTypeSpeed * (18 # 10)
  else defaultTypeSpeed.

(** The [forEach] that fills [summaryWordTimings]: the state is the
    array so far and [cumulativeTime]. *)
Definition summaryStep (st : list Q * Q) (word : ParsedWord) : list Q * Q :=
  let '(timings, cumulativeTime) := st in
  (timings ++ [cumulativeTime], cumulativeTime + wordDelay word).

Definition summaryWordTimings (allWords : list ParsedWord) : list Q :=
  fst (fold_left summaryStep allWords ([], 0)).

Definition previewWords (allWords : list ParsedWord) : list WordToLayout :=
  let timings := summaryWordTimings allWords in
  mapi (fun word i => mkWord word (nth_error timings i) (Some defaultTypeSpeed))
       allWords.

Definition previewTotalDuration (isPreviewMode : bool)
    (allWords : list ParsedWord) : Q :=
  let holdEndDuration := if isPreviewMode then 2000 else 5000 in
  let animationFinishTime :=
    match nth_error (summaryWordTimings allWords) (List.length allWords - 1) with
    | Some t => if (0 <? List.length allWords)%nat then t + FADE_DURATION else 0
    | None => 0
    end in
  animationFinishTime + holdEndDuration.


(** The running sum of the delays from [c] on, as a recursion over the
    words: what the [forEach] above accumulates. *)
Fixpoint prefixTimes (c : Q) (ws : list ParsedWord) : list Q :=
  match ws with
  | [] => []
  | wd :: t => c :: prefixTimes (c + wordDelay wd) t
  end.

(* ------------------------------------------------------------------- *)
(** *** Layout engine: [calculateLayoutForWords] *)

Record Line := mkLine { line_words : list WordToLayout; line_width : Q }.

Record Word := mkPositioned {
  timed : WordToLayout;
  x : Q;
  y : Q;
  alpha : Q;
  scale : Q;
  yOffset : Q
}.

(** The state of the shrink-to-fit loop when it exits. *)
Record FitState := mkFit {
  fit_lines : list Line;
  fit_totalHeight : Q;
  fit_fontSize : Q;
  fit_loops : nat
}.

Definition MIN_FONT_SIZE : Q := 10.
Definition FONT_STEP : Q := 2.
Definition MAX_LOOPS : nat := 20.

Section Layout.

(** [ctx.measureText(t).width] once [ctx.font] carries the given size;
    weight and family are fixed for a session. *)
Variable measureText : Q -> str -> Q.

Variable wordsToLay : list WordToLayout.
Variables (w h : Q).
Variable initialConfig : FontConfig.

Definition padding : Q := w * (1 # 10).
Definition maxWidth : Q := w - padding * 2.
Definition maxHeight : Q := h - padding * 2.
Definition lineHeightRatio : Q := lineHeight initialConfig / size initialConfig.

Definition lineText (ws : list WordToLayout) : str :=
  join (lit " ") (List.map (fun x => cleanText (parsed x)) ws).

(** One step of the greedy wrapping [forEach]: the state is [lines]
    and [currentLineWords]. *)
Definition wrapStep (font : Q) (st : list Line * list WordToLayout)
    (word : WordToLayout) : list Line * list WordToLayout :=
  let '(lines, currentLineWords) := st in
  let testLineWords := currentLineWords ++ [word] in
  if Qltb maxWidth (measureText font (lineText testLineWords))
     && (0 <? List.length currentLineWords)%nat
  then (lines ++ [mkLine currentLineWords
                         (measureText font (lineText currentLineWords))],
        [word])
  else (lines, currentLineWords ++ [word]).

Definition wrapLines (font : Q) : list Line :=
  let '(lines, currentLineWords) :=
    fold_left (wrapStep font) wordsToLay ([], []) in
  if (0 <? List.length currentLineWords)%nat
  then lines ++ [mkLine currentLineWords
                        (measureText font (lineText currentLineWords))]
  else lines.

Definition totalHeightAt (font : Q) : Q :=
  ofNat (List.length (wrapLines font)) * (font * lineHeightRatio).

(** [if (totalHeight > h - padding * 2) finalFontSize -= 2]. *)
Definition nextFontSize (font : Q) : Q :=
  if Qltb maxHeight (totalHeightAt font) then font - FONT_STEP else font.

(** The condition of the [do ... while], read after the body. *)
Definition fitContinue (font : Q) (loops : nat) : bool :=
  Qltb maxHeight (totalHeightAt font)
  && Qltb MIN_FONT_SIZE (nextFontSize font)
  && (S loops <? MAX_LOOPS)%nat.

Equations? fit_loop (finalFontSize : Q) (loops : nat) : FitState
  by wf (MAX_LOOPS - loops)%nat lt :=
  fit_loop font loops with Equations.Prop.Logic.inspect (fitContinue font loops) => {
    | exist _ true _ => fit_loop (nextFontSize font) (S loops);
    | exist _ false _ =>
        mkFit (wrapLines font) (totalHeightAt font) (nextFontSize font) (S loops) }.
Proof.
  unfold fitContinue in e.
  apply andb_prop in e as [_ e]. apply Nat.ltb_lt in e.
  clear fit_loop.
  change (MAX_LOOPS - S loops < MAX_LOOPS - loops)%nat. lia.
Qed.

Definition fitResult : FitState := fit_loop (size initialConfig) 0.

(** Positions of the words of one line, from [currentX] on. *)
Fixpoint placeWords (font spaceWidth currentX currentY : Q)
    (ws : list WordToLayout) : list Word :=
  match ws with
  | [] => []
  | word :: rest =>
      mkPositioned word currentX currentY 0 1 0
      :: placeWords font spaceWidth
           (currentX + measureText font (cleanText (parsed word)) + spaceWidth)
           currentY rest
  end.

Definition calculateLayoutForWords : list Word :=
  let st := fitResult in
  let finalFontSize := fit_fontSize st in
  let finalLineHeight := finalFontSize * lineHeightRatio in
  let startY := (h - fit_totalHeight st) / 2 in
  let finalSpaceWidth := measureText finalFontSize (lit " ") in
  List.concat
    (mapi (fun line lineIndex =>
             placeWords finalFontSize finalSpaceWidth
               ((w - line_width line) / 2)
               (startY + ofNat lineIndex * finalLineHeight)
               (line_words line))
          (fit_lines st)).

End Layout.


(* ------------------------------------------------------------------- *)
(** *** [animateScript]: choice of the timeline mode *)

Inductive VisualStyle := Minimalist | Glitchy | Retro.

Record Props := mkProps {
  script : str;
  transcriptSegments : option (list TranscriptSegment);
  width : Q;
  height : Q;
  fontSize : FontSize;
  animation : Animation;
  audioSrc : option str;
  visualStyle : VisualStyle;
  fontFamily : FontFamily;
  isPreviewMode : bool;
  hasOnProgress : bool;
  hasOnError : bool
}.

(** Truthiness of a [string | null]: neither absent nor empty. *)
Definition truthyStr (s : option str) : bool :=
  match s with
  | Some t => nonempty t
  | None => false
  end.

Record SegmentPage := mkPage {
  page_layout : list Word;
  page_start : Q;
  page_end : Q;
  page_index : nat
}.

Inductive Timeline :=
| SegmentsTimeline (pageLayouts : list SegmentPage) (totalDuration : Q)
| PagedTimeline (pageLayouts : list (list Word)) (totalDuration pageDuration : Q)
| PreviewTimeline (fullLayout : list Word) (totalDuration : Q).

Definition useSegments (p : Props) : bool :=
  match transcriptSegments p with
  | Some segs => (0 <? List.length segs)%nat && negb (isPreviewMode p)
  | None => false
  end.

Definition shouldUsePagedMode (p : Props) (audioDuration : option Q)
    (allWords : list ParsedWord) : bool :=
  let isLongScript := (30 <? List.length allWords)%nat in
  (truthyStr (audioSrc p) && truthy audioDuration && negb (isPreviewMode p))
  || (isLongScript && negb (isPreviewMode p)).

Section AnimateScript.

Variable measureText : Q -> str -> Q.
Variable p : Props.
(** [audioDurationRef.current] when [animateScript] runs. *)
Variable audioDuration : option Q.

Definition layoutOf (ws : list WordToLayout) : list Word :=
  calculateLayoutForWords measureText ws (width p) (height p)
    (scaledConfig (fontSize p) (fontFamily p)).

Definition segmentsTimeline (segs : list TranscriptSegment) : Timeline :=
  let scale := timeScale audioDuration segs in
  let pageLayouts :=
    mapi (fun pg i => mkPage (page_layout pg) (page_start pg) (page_end pg) i)
      (List.map (fun seg =>
              mkPage (layoutOf (segmentWords scale seg))
                     (seg_start seg * scale * 1000)
                     (seg_end seg * scale * 1000) 0)
           segs) in
  let totalDuration :=
    match rev pageLayouts with
    | lastSegment :: _ =>
        Qmax (page_end lastSegment + 1000)
             (match audioDuration with
              | Some a => if truthy audioDuration then a * 1000 else 0
              | None => 0
              end)
    | [] => 0
    end in
  SegmentsTimeline pageLayouts totalDuration.

Definition pagedTimeline (allWords : list ParsedWord) : Timeline :=
  let pages := chunk allWords WORDS_PER_PAGE in
  let totalDuration := pagedTotalDuration audioDuration (List.length allWords) in
  let pageDuration := pageDurationOf totalDuration (List.length pages) in
  PagedTimeline
    (mapi (fun pageWords pageIndex =>
             layoutOf (pageWordsTimed pageDuration pageWords pageIndex))
          pages)
    totalDuration pageDuration.

Definition previewTimeline (allWords : list ParsedWord) : Timeline :=
  PreviewTimeline (layoutOf (previewWords allWords))
                  (previewTotalDuration (isPreviewMode p) allWords).

Definition animateScript : Timeline :=
  let allWords := List.map parseStyledWord (words (script p)) in
  if useSegments p then
    match transcriptSegments p with
    | Some segs => segmentsTimeline segs
    | None => previewTimeline allWords
    end
  else if shouldUsePagedMode p audioDuration allWords
  then pagedTimeline allWords
  else previewTimeline allWords.

End AnimateScript.

(** The pages (or segments) of a timeline, each as laid out. *)
Definition timelinePages (t : Timeline) : list (list Word) :=
  match t with
  | SegmentsTimeline pageLayouts _ => List.map page_layout pageLayouts
  | PagedTimeline pageLayouts _ _ => pageLayouts
  | PreviewTimeline fullLayout _ => [fullLayout]
  end.

Definition startTimes (layout : list Word) : list Q :=
  List.map (fun wd => wordStartTime (timed wd)) layout.

(* ------------------------------------------------------------------- *)
(** *** Frame renderer: [renderPage] and [animateWord] *)

Record Theme := mkTheme {
  baseColor : str;
  highlightColor : str;
  accentColor : str
}.

Definition THEME_CONFIG (v : VisualStyle) : Theme :=
  match v with
  | Minimalist => mkTheme (lit "#FFFFFF") (lit "#FFE100") (lit "#FF3333")
  | Glitchy => mkTheme (lit "#00FF00") (lit "#FFFFFF") (lit "#FF00FF")
  | Retro => mkTheme (lit "#FFB86C") (lit "#FFFF00") (lit "#FF5555")
  end.

(** What [renderPage] hands to [animateWord] for one word. *)
Record WordFrame := mkFrame {
  fr_progress : Q;
  fr_isActive : bool;
  fr_activeProgress : Q
}.

(** The body of the [forEach] of [renderPage]; [None] is the early
    [return] for a word that has not started. *)
Definition wordFrame (elapsedTime fadeDuration : Q) (word : Word)
  : option WordFrame :=
  let wordElapsedTime := elapsedTime - wordStartTime (timed word) in
  if Qltb wordElapsedTime 0 then None
  else
    let progress := Qmin 1 (wordElapsedTime / fadeDuration) in
    match duration (timed word) with
    | Some d =>
        if truthy (Some d)
        then Some (mkFrame progress
                     (Qleb 0 wordElapsedTime && Qltb wordElapsedTime d)
                     (wordElapsedTime / d))
        else Some (mkFrame progress false 0)
    | None => Some (mkFrame progress false 0)
    end.

Definition easeOutCubic (t : Q) : Q := 1 - (1 - t) ^ 3.

(** The [switch (animation)] of [animateWord], which writes the visual
    state onto the word. *)
Definition baseAnimation (a : Animation) (word : Word) (progress : Q) : Word :=
  match a with
  | FadeZoom =>
      mkPositioned (timed word) (x word) (y word) (easeOutCubic progress)
        (1 + (1 # 2) * (1 - easeOutCubic progress)) (yOffset word)
  | DropIn =>
      mkPositioned (timed word) (x word) (y word) (easeOutCubic progress)
        (scale word) (-50 * (1 - easeOutCubic progress))
  | Typewriter =>
      mkPositioned (timed word) (x word) (y word)
        (if Qleb 0 progress then 1 else 0) (scale word) (yOffset word)
  end.

(** The bounce of the active word. *)
Definition activeScale (isActive : bool) (activeProgress : Q) : Q :=
  if isActive then
    Qmax 1
      (if Qltb activeProgress (2 # 10)
       then 1 + (activeProgress * 5) * (15 # 100)
       else (115 # 100) - ((activeProgress - (2 # 10)) * (125 # 100)) * (15 # 100))
  else 1.

Definition wordBaseColor (theme : Theme) (word : Word) (isActive : bool) : str :=
  if isActive then highlightColor theme
  else if isHighlight (parsed (timed word)) then accentColor theme
  else baseColor theme.

(** [isActive ? highlightColor : (span.style.color || baseColor)]. *)
Definition spanColor (theme : Theme) (word : Word) (isActive : bool)
    (span : StyleSpan) : str :=
  if isActive then highlightColor theme
  else if truthyStr (color (style span))
       then match color (style span) with
            | Some c => c
            | None => wordBaseColor theme word isActive
            end
       else wordBaseColor theme word isActive.

(** The values [animateWord] paints one word with. *)
Record Painted := mkPainted {
  pt_word : Word;
  pt_finalScale : Q;
  pt_colors : list str
}.

Definition animateWord (theme : Theme) (a : Animation) (word : Word)
    (fr : WordFrame) : Painted :=
  let word' := baseAnimation a word (fr_progress fr) in
  mkPainted word'
    (scale word' * activeScale (fr_isActive fr) (fr_activeProgress fr))
    (List.map (spanColor theme word (fr_isActive fr))
         (spans (parsed (timed word)))).

(** [renderPage]: the words drawn in this frame. *)
Definition renderPage (theme : Theme) (a : Animation) (layout : list Word)
    (elapsedTime fadeDuration : Q) : list Painted :=
  flat_map (fun word =>
              match wordFrame elapsedTime fadeDuration word with
              | Some fr => [animateWord theme a word fr]
              | None => []
              end)
           layout.


(* ------------------------------------------------------------------- *)
(** *** Capture pipeline: audio set-up, render clock, progress *)

Definition Blob := list N.

(** The calls a session makes to its callbacks, to the frame scheduler
    and to the recorder.  An object URL stands for the blob it names. *)
Inductive Call :=
| OnProgress (percent : Z)
| OnComplete (url : Blob)
| OnError (message : str)
| RequestFrame
| StopRecorder.

(** Outcome of fetching and decoding the audio in [setupAndStartRecorder]. *)
Inductive AudioLoad :=
| AudioDecoded (bufferDuration : Q)
| AudioLoadFailed.

Record AudioRefs := mkRefs {
  audioDurationRef : option Q;
  audioStartTimeRef : Q
}.

(** The inner [try]/[catch] of [setupAndStartRecorder]: [currentTime] is
    [audioContext.currentTime] (seconds), [now] is [performance.now()]
    (milliseconds). *)
Definition setupAudio (src : option str) (load : AudioLoad)
    (currentTime now : Q) : AudioRefs :=
  match load with
  | AudioDecoded d =>
      mkRefs (if truthyStr src then Some d else None) currentTime
  | AudioLoadFailed => mkRefs None (now / 1000)
  end.

(** What a frame can read. *)
Record Clock := mkClock {
  audioContextTime : option Q;   (* [audioContextRef.current.currentTime] *)
  audioStartTime : Q;            (* [audioStartTimeRef.current] *)
  performanceNow : Q;            (* [performance.now()] *)
  frameTime : Q                  (* the time passed to the frame callback *)
}.

Definition elapsedSegments (c : Clock) : Q :=
  match audioContextTime c with
  | Some currentTime => (currentTime - audioStartTime c) * 1000
  | None => performanceNow c
  end.

Definition elapsedPaged (src : option str) (startTime : Q) (c : Clock) : Q :=
  match audioContextTime c with
  | Some currentTime =>
      if truthyStr src then (currentTime - audioStartTime c) * 1000
      else frameTime c - startTime
  | None => frameTime c - startTime
  end.

Definition elapsedPreview (preview : bool) (totalDuration startTime : Q)
    (c : Clock) : Q :=
  let elapsedTime := frameTime c - startTime in
  if preview then Qrem elapsedTime totalDuration else elapsedTime.

(** [Math.min(100, Math.round((elapsed / totalDuration) * 100))]. *)
Definition progressOf (actualElapsedTime totalDuration : Q) : Z :=
  Z.min 100 (Math_round ((actualElapsedTime / totalDuration) * 100)).

(** The elapsed time a frame of the given timeline works with;
    [startTime] is [performance.now()] taken when the loop was set up. *)
Definition frameElapsed (p : Props) (t : Timeline) (startTime : Q)
    (c : Clock) : Q :=
  match t with
  | SegmentsTimeline _ _ => elapsedSegments c
  | PagedTimeline _ _ _ => elapsedPaged (audioSrc p) startTime c
  | PreviewTimeline _ total =>
      elapsedPreview (isPreviewMode p) total startTime c
  end.

Definition totalDurationOf (t : Timeline) : Q :=
  match t with
  | SegmentsTimeline _ total => total
  | PagedTimeline _ total _ => total
  | PreviewTimeline _ total => total
  end.

(** The end of a frame: schedule the next one, or stop the recorder
    once ([isStopping] guards against a second stop). *)
Definition frameTail (p : Props) (continue recording isStopping : bool)
  : list Call :=
  if continue then [RequestFrame]
  else if recording && negb isStopping
       then (if hasOnProgress p then [OnProgress 100] else []) ++ [StopRecorder]
       else [].

(** The callback traffic of one [render] frame, drawing left out. *)
Definition renderFrame (p : Props) (t : Timeline) (startTime : Q) (c : Clock)
    (recording isStopping : bool) : list Call :=
  let elapsed := frameElapsed p t startTime c in
  let total := totalDurationOf t in
  match t with
  | PreviewTimeline _ _ =>
      (if isPreviewMode p then []
       else if hasOnProgress p then [OnProgress (progressOf elapsed total)]
       else [])
      ++ frameTail p (isPreviewMode p || Qltb elapsed total) recording isStopping
  | _ =>
      (if hasOnProgress p then [OnProgress (progressOf elapsed total)] else [])
      ++ frameTail p (Qltb elapsed total) recording isStopping
  end.

(* ------------------------------------------------------------------- *)
(** *** Capture pipeline: the recorder *)

(** [ondataavailable]: empty chunks are not kept. *)
Definition ondataavailable (chunks : list Blob) (data : Blob) : list Blob :=
  if (0 <? List.length data)%nat then chunks ++ [data] else chunks.

(** [new Blob(chunks)]. *)
Definition newBlob (chunks : list Blob) : Blob := List.concat chunks.

(** [onstop]: an empty blob throws inside the [try], and the [catch]
    reports through [onError] when the prop is present. *)
Definition onstop (p : Props) (chunks : list Blob) : list Call :=
  let blob := newBlob chunks in
  if (List.length blob =? 0)%nat
  then (if hasOnError p then [OnError (lit "Failed to finalize video file.")]
        else [])
  else [OnComplete blob].

Inductive RecorderEvent :=
| DataAvailable (data : Blob)
| Stopped.

(** The recorder's events in order, from [start()] on; nothing follows
    the stop event. *)
Fixpoint recorderRun (p : Props) (chunks : list Blob)
    (events : list RecorderEvent) : list Call :=
  match events with
  | [] => []
  | DataAvailable data :: rest =>
      recorderRun p (ondataavailable chunks data) rest
  | Stopped :: _ => onstop p chunks
  end.


(** Whether [renderPage] treats the word as active in this frame. *)
Definition isActiveAt (elapsedTime fadeDuration : Q) (word : Word) : bool :=
  match wordFrame elapsedTime fadeDuration word with
  | Some fr => fr_isActive fr
  | None => false
  end.

(** The data handed over before the stop event, and whether the
    recorder stopped at all. *)
Fixpoint dataBefore (events : list RecorderEvent) : list Blob :=
  match events with
  | DataAvailable data :: rest => data :: dataBefore rest
  | _ => []
  end.

Fixpoint stopped (events : list RecorderEvent) : bool :=
  match events with
  | [] => false
  | DataAvailable _ :: rest => stopped rest
  | Stopped :: _ => true
  end.

(* ------------------------------------------------------------------- *)
(** *** The drift correction as the specification words it *)

(** Follows the specification, not the source: the ratio is accepted
    on the closed interval from 0.8 to 1.2. *)
Definition timeScale_spec (audioDuration : option Q) (lastSegmentEnd : Q) : Q :=
  match audioDuration with
  | Some audio =>
      if Qltb (1 # 2) (Qabs (audio - lastSegmentEnd)) then
        let ratio := audio / lastSegmentEnd in
        if Qleb (8 # 10) ratio && Qleb ratio (12 # 10) then ratio else 1
      else 1
  | None => 1
  end.



(** The parts of a style list, trimmed, and whether one names an effect. *)
Definition paramParts (params : str) : list str :=
  List.map trim (split_on (N.eqb c_bar) params).

(** The body of the [forEach] over the parts of a style list. *)
Definition paramStep (st : Style) (part : str) : Style :=
  match effect_of (trim part) with
  | Some e => mkStyle (color st) (Some e)
  | None => mkStyle (Some (trim part)) (effect st)
  end.

Definition isEffectName (s : str) : bool :=
  match effect_of s with
  | Some _ => true
  | None => false
  end.

(* ------------------------------------------------------------------- *)
(** *** Background cover, encoding choice, page look-up *)




Definition mimeTypes : list str :=
  [lit "video/webm;codecs=vp9"; lit "video/webm;codecs=vp8";
   lit "video/webm"; lit "video/mp4"].

(** [getSupportedMimeType]: the [for ... of] with its early [return];
    [isTypeSupported] is [MediaRecorder.isTypeSupported]. *)
Fixpoint firstSupported (isTypeSupported : str -> bool) (types : list str)
  : option str :=
  match types with
  | [] => None
  | type :: rest =>
      if isTypeSupported type then Some type
      else firstSupported isTypeSupported rest
  end.

Definition getSupportedMimeType (isTypeSupported : str -> bool) : option str :=
  firstSupported isTypeSupported mimeTypes.

(** The page shown by a frame of the timestamped loop: the [find] and its
    three fallbacks.  [None] stands for the [TypeError] of reading
    [pageLayouts[0].start] on an empty array. *)
Definition activePage (pageLayouts : list SegmentPage) (visualTime : Q)
  : option SegmentPage :=
  match
    find (fun pg => Qleb (page_start pg) visualTime
                    && Qltb visualTime (page_end pg)) pageLayouts
  with
  | Some pg => Some pg
  | None =>
      match pageLayouts, rev pageLayouts with
      | first :: _, lastPage :: _ =>
          if Qltb visualTime (page_start first) then Some first
          else if Qleb (page_end lastPage) visualTime then Some lastPage
          else
            match find (fun pg => Qleb (page_end pg) visualTime)
                       (rev pageLayouts) with
            | Some prevSegment => Some prevSegment
            | None => Some first
            end
      | _, _ => None
      end
  end.

(** [Math.min(pages.length - 1, Math.floor(visualTime / pageDuration))]. *)
Definition pagedPageIndex (nPages : nat) (visualTime pageDuration : Q) : Z :=
  Z.min (Z.of_nat nPages - 1) (Qfloor (visualTime / pageDuration)).

(** [pageLayouts[pageIndex]] under [if (pages.length > 0)]: the layout a
    frame of the paged loop renders, if any. *)
Definition pagedCurrentLayout (pageLayouts : list (list Word))
    (visualTime pageDuration : Q) : option (list Word) :=
  if (0 <? List.length pageLayouts)%nat then
    let pageIndex := pagedPageIndex (List.length pageLayouts) visualTime pageDuration in
    if (pageIndex <? 0)%Z then None
    else nth_error pageLayouts (Z.to_nat pageIndex)
  else None.

End Player.

Import Player.

(* ===================================================================== *)
(** ** The script service: [repairKoreanSentence], [generateAutopsyScript] *)
(* ===================================================================== *)

Module Gemini.

Inductive Language := Korean | English.

(** What the [async] function settles to. *)
Inductive Outcome :=
| Returned (scriptText : str)
| Thrown (message : str).

(** The class of word characters of the fallback: [A-Za-z0-9_] and the
    Hangul syllables U+AC00 to U+D7A3. *)
Definition wordChar (c : char) : bool :=
  ((48 <=? c) && (c <=? 57) || (65 <=? c) && (c <=? 90) || (c =? 95)
   || (97 <=? c) && (c <=? 122) || (44032 <=? c) && (c <=? 55203))%N.

(** The seven dangling modifiers, one Hangul syllable each. *)
Definition danglingModifiers : list str :=
  [[54620]; [51064]; [51032]; [45912]; [45716]; [51012]; [47484]]%N.

(** The accepted last characters: full stop, exclamation mark, question
    mark, star and four Hangul sentence endings. *)
Definition sentenceEnds : list str :=
  [[46]; [33]; [63]; [42]; [45796]; [50836]; [51020]; [51076]]%N.

(** The appended endings, each a space, a noun phrase and a full stop. *)
Definition nounEndings : list str :=
  [[32; 44208; 44284; 45796; 46];
   [32; 49345; 53468; 45796; 46];
   [32; 52265; 44033; 51060; 45796; 46];
   [32; 51204; 47029; 51060; 45796; 46]]%N.

(** [Math.floor(r * n)] for [r = Math.random()]. *)
Definition randomIndex (r : Q) (n : nat) : Z := Qfloor (r * ofNat n).

(** [arr[i]] for an integer [i]: [None] is [undefined]. *)
Definition at_index {A} (arr : list A) (i : Z) : option A :=
  if (i <? 0)%Z then None else nth_error arr (Z.to_nat i).

Definition repairKoreanSentence (r : Q) (text : str) : str :=
  let repaired0 := trim text in
  let openCount := count star repaired0 in
  let repaired1 :=
    if Nat.odd openCount then
      if endsWithChar star repaired0 then dropLast repaired0
      else repaired0 ++ [star]
    else repaired0 in
  let repaired :=
    if startsWithChar star repaired1 && endsWithChar star repaired1
       && (10 <? List.length repaired1)%nat
    then slice_1_m1 repaired1 else repaired1 in
  let last := lastChar repaired in
  let effectiveLastChar :=
    if str_eqb last [star] then secondLastChar repaired else last in
  if includes danglingModifiers effectiveLastChar then
    let randomEnding :=
      match at_index nounEndings (randomIndex r (List.length nounEndings)) with
      | Some e => e
      | None => lit "undefined"
      end in
    repaired ++ [] ++ randomEnding
  else if negb (includes sentenceEnds effectiveLastChar) then
    if negb (str_eqb last [star]) then repaired ++ lit "." else repaired
  else repaired.

(** The longest prefix satisfying [p], and the rest. *)
Fixpoint span (p : char -> bool) (s : str) : str * str :=
  match s with
  | [] => ([], [])
  | c :: t =>
      if p c then let '(a, b) := span p t in (c :: a, b) else ([], s)
  end.

(** The fallback's word pattern, anchored at both ends: a run of
    non-word characters, a non-empty run of word characters, a run of
    non-word characters.  The classes alternate, so the greedy split is
    the only possible match. *)
Definition wordMatch (s : str) : option (str * str * str) :=
  let '(prefix, rest) := span (fun c => negb (wordChar c)) s in
  let '(core, suffix) := span wordChar rest in
  if nonempty core && forallb (fun c => negb (wordChar c)) suffix
  then Some (prefix, core, suffix) else None.

Fixpoint replaceAt {A} (i : nat) (v : A) (l : list A) : list A :=
  match l, i with
  | [], _ => []
  | _ :: t, O => v :: t
  | a :: t, S j => a :: replaceAt j v t
  end.

Definition c_space : char := 32%N.

(** The fallback that stars one word of a text without stars; [None]
    is a [TypeError] on an [undefined] array element. *)
Definition highlightFallback (r : Q) (ws : list str) : option str :=
  let candidates :=
    filter (fun item => (2 <? List.length (fst item))%nat)
           (mapi (fun wd i => (wd, i)) ws) in
  let targetIndex :=
    if (0 <? List.length candidates)%nat then
      match at_index candidates (randomIndex r (List.length candidates)) with
      | Some item => Some (Z.of_nat (snd item))
      | None => None
      end
    else Some (randomIndex r (List.length ws - 2) + 1)%Z in
  match targetIndex with
  | None => None
  | Some ti =>
      match at_index ws ti with
      | None => None
      | Some targetWord =>
          let starred :=
            match wordMatch targetWord with
            | Some (prefix, core, suffix) =>
                prefix ++ [star] ++ core ++ [star] ++ suffix
            | None => [star] ++ targetWord ++ [star]
            end in
          Some (join [c_space] (replaceAt (Z.to_nat ti) starred ws))
      end
  end.

Definition failureMessage : str :=
  lit "Failed to communicate with the analysis engine.".

(** [generateAutopsyScript] after the model has answered:
    [responseText] is [response.text], [r1] and [r2] are the values of
    [Math.random()] in the repair and in the fallback.  Every exception
    inside the [try] is rethrown with the one message. *)
Definition generateAutopsyScript (language : Language)
    (responseText : option str) (r1 r2 : Q) : Outcome :=
  match responseText with
  | None | Some [] => Thrown failureMessage
  | Some text0 =>
      let text :=
        match language with
        | Korean => repairKoreanSentence r1 text0
        | English =>
            if Nat.odd (count star text0) then text0 ++ [star] else text0
        end in
      if negb (existsb (N.eqb star) text) then
        let ws := split_on (N.eqb c_space) text in
        if (2 <? List.length ws)%nat then
          match highlightFallback r2 ws with
          | Some s => Returned s
          | None => Thrown failureMessage
          end
        else Returned (trim text)
      else Returned (trim text)
  end.

(** Every character but the star. *)
Definition notStar (c : char) : bool := negb (star =? c)%N.

End Gemini.

(* ===================================================================== *)
(** ** The input form: [handleSubmit] *)
(* ===================================================================== *)

Module InputForm.

Inductive AutopsyMode := summarize | literal.

(** The arguments [handleSubmit] passes to [onStart], or [None] when the
    submission is ignored.  [hasAudioBlob] is [audioBlobRef.current]
    being set. *)
Definition handleSubmit (mode : AutopsyMode) (concern : str)
    (hasAudioBlob isTranscribing isRecording : bool)
  : option (str * AutopsyMode * bool) :=
  let canSubmitSummarize :=
    match mode with summarize => nonempty (trim concern) | literal => false end in
  let canSubmitLiteral :=
    match mode with
    | literal => nonempty (trim concern) && hasAudioBlob
    | summarize => false
    end in
  if negb isTranscribing && negb isRecording
     && (canSubmitSummarize || canSubmitLiteral)
  then Some (trim concern, mode, hasAudioBlob)
  else None.

End InputForm.

Import Gemini.
Import InputForm.

(* ===================================================================== *)
(** ** Runs on concrete inputs *)
(* ===================================================================== *)

(** A stand-in for the canvas metric: half an em for every character. *)
Definition halfEm (fontPx : Q) (s : str) : Q :=
  fontPx * ofNat (List.length s) * (1 # 2).

(** Thirty ten-letter words, timed as the preview-mode branch times them. *)
Definition thirtyWords : list WordToLayout :=
  previewWords (List.map parseStyledWord (repeat (lit "aaaaaaaaaa") 30)).

Definition exportProps (scriptText : str)
    (segs : option (list TranscriptSegment)) (src : option str)
    (preview : bool) : Props :=
  mkProps scriptText segs 800 450 Medium FadeZoom src Minimalist Sans
          preview true true.

Example ex_parse1 :
  parseStyledWord (lit "*a[bc](red|wiggle)d*") =
  mkParsed (lit "abcd") true
    [mkSpan (lit "a") plainStyle;
     mkSpan (lit "bc") (mkStyle (Some (lit "red")) (Some wiggle));
     mkSpan (lit "d") plainStyle].
Proof. reflexivity. Qed.

Example ex_parse_one_sided :
  parseStyledWord (lit "*busy*;") =
  mkParsed (lit "busy*;") false [mkSpan (lit "busy*;") plainStyle].
Proof. reflexivity. Qed.

Example ex_timings :
  summaryWordTimings (List.map parseStyledWord (words (lit "Hi, you. ok")))
  = [0; 250 * (18 # 10); 250 * (18 # 10) + 250 * (5 # 2)].
Proof. reflexivity. Qed.

Example ex_fallback :
  generateAutopsyScript English (Some (lit "He is busy.")) 0 (1 # 2)
  = Returned (lit "He is *busy*.").
Proof. reflexivity. Qed.

Example ex_drift_115 :
  timeScale (Some 115) [mkSegment (lit "a b") 0 100] = 115 / 100.
Proof. reflexivity. Qed.

Example ex_segment_words :
  List.map wordStartTime (segmentWords 1 (mkSegment (lit "a b  c") 1 4))
  = [1 * 1 * 1000 + 0 * ((4 * 1 - 1 * 1) * 1000 / 3);
     1 * 1 * 1000 + 1 * ((4 * 1 - 1 * 1) * 1000 / 3);
     1 * 1 * 1000 + 2 * ((4 * 1 - 1 * 1) * 1000 / 3)].
Proof. reflexivity. Qed.

(** The repair closes an open star, strips the pair around the whole
    sentence, adds the full stop, and the fallback stars the long word. *)
Example ex_repair :
  generateAutopsyScript Korean (Some (lit " *He is busy  ")) 0 (1 # 2)
  = Returned (lit "He is *busy*.").
Proof. reflexivity. Qed.

(** Sans at the Large size on the export canvas: nine iterations bring the
    thirty words from 40 px down to a wrapping at 24 px that fits. *)
Example ex_fit_sans :
  let st := fitResult halfEm thirtyWords 800 450 (scaledConfig Large Sans) in
  fit_loops st = 9%nat /\ fit_fontSize st == 24 /\ fit_totalHeight st == 288
  /\ List.length (fit_lines st) = 8%nat.
Proof. vm_compute. repeat split. Qed.

(* ===================================================================== *)
(** ** Styled-word parser *)
(* ===================================================================== *)

Section ParserFacts.

Lemma parse_loop_partition s acc clean :
  List.concat (List.map text acc) = clean ->
  List.concat (List.map text (fst (fst (parse_loop s acc clean))))
  = snd (fst (parse_loop s acc clean)).
Proof.
  funelim (parse_loop s acc clean); intros Hinv.
  - apply H.
    rewrite map_app, concat_app. cbn [List.map List.concat text].
    rewrite app_nil_r. f_equal.
    destruct (nonempty pre); [|assumption].
    rewrite map_app, concat_app. cbn. rewrite app_nil_r. now f_equal.
  - exact Hinv.
Qed.

Lemma run_until_none stop s :
  existsb (N.eqb stop) s = false -> run_until stop s = (s, []).
Proof.
  induction s as [|c t IH]; cbn; [reflexivity|].
  rewrite N.eqb_sym.
  destruct (c =? stop)%N; cbn; [discriminate|].
  intros H. now rewrite IH.
Qed.

Lemma regex_exec_plain s :
  existsb (N.eqb c_lbrack) s = false -> regex_exec s = None.
Proof.
  induction s as [|c t IH]; [reflexivity|].
  cbn [existsb regex_exec match_here]. rewrite N.eqb_sym.
  destruct (c =? c_lbrack)%N; cbn; [discriminate|].
  intros H. now rewrite IH.
Qed.

Lemma parse_loop_plain s acc clean :
  existsb (N.eqb c_lbrack) s = false -> parse_loop s acc clean = (acc, clean, s).
Proof.
  funelim (parse_loop s acc clean); intros Hplain.
  - exfalso. pose proof (regex_exec_plain s Hplain) as Hn. congruence.
  - reflexivity.
Qed.

(** A word without an opening bracket holds no directive: its token is
    the stripped text in one plain span. *)
Lemma parseStyledWord_plain w :
  existsb (N.eqb c_lbrack) (stripStars w) = false ->
  parseStyledWord w =
  mkParsed (stripStars w) (startsWithChar star w && endsWithChar star w)
           [mkSpan (stripStars w) plainStyle].
Proof.
  intros H. unfold parseStyledWord. rewrite parse_loop_plain by assumption.
  destruct (stripStars w); reflexivity.
Qed.

Lemma stripTrailingStar_snoc m : stripTrailingStar (m ++ [star]) = m.
Proof.
  unfold stripTrailingStar. rewrite rev_app_distr. cbn. apply rev_involutive.
Qed.

Lemma stripTrailingStar_keep m :
  endsWithChar star m = false -> stripTrailingStar m = m.
Proof.
  unfold stripTrailingStar, endsWithChar. intros H.
  destruct (rev m) as [|c t] eqn:E.
  - cbn. rewrite <- (rev_involutive m), E. reflexivity.
  - cbn in H |- *. rewrite H. rewrite <- E. apply rev_involutive.
Qed.

Lemma stripLeadingStar_keep m :
  startsWithChar star m = false -> stripLeadingStar m = m.
Proof. destruct m as [|c t]; cbn; [reflexivity|]. now intros ->. Qed.

Lemma endsWithChar_snoc c m : endsWithChar c (m ++ [c]) = true.
Proof.
  unfold endsWithChar. rewrite rev_app_distr. cbn. apply N.eqb_refl.
Qed.

Lemma endsWithChar_cons c d m :
  m <> [] -> endsWithChar c (d :: m) = endsWithChar c m.
Proof.
  intros Hm. unfold endsWithChar. cbn [rev].
  destruct (rev m) as [|a t] eqn:E.
  - exfalso. apply Hm. rewrite <- (rev_involutive m), E. reflexivity.
  - reflexivity.
Qed.

Lemma startsWithChar_app c m n :
  m <> [] -> startsWithChar c (m ++ n) = startsWithChar c m.
Proof. destruct m; [congruence|reflexivity]. Qed.

End ParserFacts.

(** C2.  Span partition: for every raw word, the texts of the spans of the
    parsed token, concatenated in order, are exactly its clean text. *)
Theorem span_partition (rawWord : str) :
  List.concat (List.map text (spans (parseStyledWord rawWord)))
  = cleanText (parseStyledWord rawWord).
Proof.
  unfold parseStyledWord.
  pose proof (parse_loop_partition (stripStars rawWord) [] [] eq_refl) as H.
  destruct (parse_loop (stripStars rawWord) [] []) as [[sp cl] rem].
  cbn [fst snd] in H.
  destruct (nonempty rem).
  - destruct (sp ++ [mkSpan rem plainStyle]) as [|a l] eqn:E.
    + destruct sp; discriminate.
    + cbn [spans cleanText]. rewrite <- E, map_app, concat_app, H.
      cbn. now rewrite app_nil_r.
  - destruct sp as [|a l]; cbn [spans cleanText].
    + cbn. apply app_nil_r.
    + exact H.
Qed.

(** C4, as stated, fails: a raw word with a star at its start only loses
    that star, although it is not a highlight. *)
Lemma emphasis_one_sided_counterexample :
  startsWithChar star (lit "*foo") = true
  /\ endsWithChar star (lit "*foo") = false
  /\ isHighlight (parseStyledWord (lit "*foo")) = false
  /\ cleanText (parseStyledWord (lit "*foo")) = lit "foo"
  /\ cleanText (parseStyledWord (lit "*foo")) <> lit "*foo".
Proof. repeat split; try reflexivity. discriminate. Qed.

(** C4 (amended).  The parser removes a star at the start of the raw word
    and a star at its end, each on its own; [isHighlight] is set exactly
    when the raw word both starts and ends with a star.  For a word [m]
    without directive: starred on both sides, on the left only, on the
    right only, and not at all. *)
Theorem emphasis_stripping (m : str) :
  existsb (N.eqb c_lbrack) m = false ->
  parseStyledWord (star :: m ++ [star]) = mkParsed m true [mkSpan m plainStyle]
  /\ (endsWithChar star (star :: m) = false ->
      parseStyledWord (star :: m) = mkParsed m false [mkSpan m plainStyle])
  /\ (startsWithChar star (m ++ [star]) = false ->
      parseStyledWord (m ++ [star]) = mkParsed m false [mkSpan m plainStyle])
  /\ (startsWithChar star m = false -> endsWithChar star m = false ->
      parseStyledWord m = mkParsed m false [mkSpan m plainStyle])
  /\ (forall w, isHighlight (parseStyledWord w)
                = startsWithChar star w && endsWithChar star w).
Proof.
  intros Hm. repeat split.
  - assert (Hs : stripStars (star :: m ++ [star]) = m).
    { unfold stripStars. cbn [stripLeadingStar]. rewrite N.eqb_refl.
      apply stripTrailingStar_snoc. }
    rewrite parseStyledWord_plain; rewrite Hs; [|assumption].
    change (star :: m ++ [star]) with ((star :: m) ++ [star]).
    rewrite endsWithChar_snoc. reflexivity.
  - intros He.
    assert (Hne : m <> []). { intros ->. discriminate He. }
    rewrite endsWithChar_cons in He by assumption.
    assert (Hs : stripStars (star :: m) = m).
    { unfold stripStars. cbn [stripLeadingStar]. rewrite N.eqb_refl.
      now apply stripTrailingStar_keep. }
    rewrite parseStyledWord_plain; rewrite Hs; [|assumption].
    rewrite endsWithChar_cons, He by assumption. now rewrite andb_false_r.
  - intros Hst.
    assert (Hs : stripStars (m ++ [star]) = m).
    { unfold stripStars. rewrite stripLeadingStar_keep by assumption.
      apply stripTrailingStar_snoc. }
    rewrite parseStyledWord_plain; rewrite Hs; [|assumption].
    now rewrite Hst.
  - intros Hst He.
    assert (Hs : stripStars m = m).
    { unfold stripStars. rewrite stripLeadingStar_keep by assumption.
      now apply stripTrailingStar_keep. }
    rewrite parseStyledWord_plain; rewrite Hs; [|assumption].
    now rewrite Hst.
  - intros w. unfold parseStyledWord.
    destruct (parse_loop (stripStars w) [] []) as [[sp cl] rem].
    destruct (nonempty rem); [destruct (sp ++ _)|destruct sp]; reflexivity.
Qed.

Lemma emphasis_stripping_witness :
  parseStyledWord (lit "*foo*")
  = mkParsed (lit "foo") true [mkSpan (lit "foo") plainStyle]
  /\ parseStyledWord (lit "*foo")
     = mkParsed (lit "foo") false [mkSpan (lit "foo") plainStyle]
  /\ parseStyledWord (lit "foo*")
     = mkParsed (lit "foo") false [mkSpan (lit "foo") plainStyle]
  /\ parseStyledWord (lit "foo")
     = mkParsed (lit "foo") false [mkSpan (lit "foo") plainStyle].
Proof.
  destruct (emphasis_stripping (lit "foo") eq_refl) as (H1 & H2 & H3 & H4 & _).
  exact (conj H1 (conj (H2 eq_refl) (conj (H3 eq_refl) (H4 eq_refl eq_refl)))).
Defined.

(* ===================================================================== *)
(** ** Timeline builder *)
(* ===================================================================== *)

Section NumberFacts.

Lemma Qltb_lt a b : Qltb a b = true <-> a < b.
Proof.
  unfold Qltb. rewrite negb_true_iff. split; intros H.
  - apply Qnot_le_lt. intros Hle. apply Qle_bool_iff in Hle. congruence.
  - destruct (Qle_bool b a) eqn:E; [|reflexivity].
    apply Qle_bool_iff in E. exfalso. exact (Qlt_not_le _ _ H E).
Qed.

Lemma Qltb_ge a b : Qltb a b = false <-> b <= a.
Proof.
  unfold Qltb. rewrite negb_false_iff. apply Qle_bool_iff.
Qed.

Lemma Qleb_le a b : Qleb a b = true <-> a <= b.
Proof. apply Qle_bool_iff. Qed.

Lemma Qmax_ge_l a b : a <= Qmax a b.
Proof.
  unfold Qmax. destruct (Qltb a b) eqn:E.
  - apply Qltb_lt in E. now apply Qlt_le_weak.
  - apply Qle_refl.
Qed.


Lemma ofNat_pos n : (0 < n)%nat -> 0 < ofNat n.
Proof.
  intros H. unfold ofNat. change 0 with (inject_Z 0). rewrite <- Zlt_Qlt. lia.
Qed.

Lemma ofNat_S n : ofNat (S n) == ofNat n + 1.
Proof.
  unfold ofNat. rewrite Nat2Z.inj_succ, <- Z.add_1_r, inject_Z_plus.
  reflexivity.
Qed.

End NumberFacts.

(** C1, as stated, fails at the bounds: a ratio of exactly 1.2 is accepted
    by the specification's closed interval and refused by the source. *)
Lemma drift_bound_counterexample :
  timeScale (Some 120) [mkSegment (lit "a b") 0 100] = 1
  /\ timeScale_spec (Some 120) 100 = 120 / 100
  /\ ~ timeScale (Some 120) [mkSegment (lit "a b") 0 100]
       == timeScale_spec (Some 120) 100.
Proof. repeat split. intros H. vm_compute in H. discriminate H. Qed.

(** C1 (amended).  With the audio duration known and further than 0.5 s
    from the end of the last segment, the time scale is the ratio
    [audio / lastEnd] when that ratio lies strictly between 0.8 and 1.2;
    at 0.8 or below, at 1.2 or above, and whenever the two durations are at
    most 0.5 s apart or the audio duration is unknown, the scale is 1.  A
    last end of 100 s with an audio of 200 s gives the scale 1. *)
Theorem drift_correction_bounds (segs : list TranscriptSegment)
    (lastSeg : TranscriptSegment) (audio : Q) :
  let lastEnd := seg_end lastSeg in
  let ratio := audio / lastEnd in
  let scale := timeScale (Some audio) (segs ++ [lastSeg]) in
  (1 # 2 < Qabs (audio - lastEnd) -> 8 # 10 < ratio -> ratio < 12 # 10 ->
   scale = ratio)
  /\ (Qabs (audio - lastEnd) <= 1 # 2 -> scale = 1)
  /\ (ratio <= 8 # 10 -> scale = 1)
  /\ (12 # 10 <= ratio -> scale = 1)
  /\ timeScale None (segs ++ [lastSeg]) = 1
  /\ (lastEnd = 100 -> audio = 200 -> scale = 1).
Proof.
  cbv zeta. unfold timeScale. rewrite rev_app_distr. cbn [rev app].
  set (lastEnd := seg_end lastSeg). set (ratio := audio / lastEnd).
  repeat split.
  - intros Habs Hlo Hhi.
    assert (Ht : truthy (Some audio) = true).
    { cbn. apply negb_true_iff. destruct (Qeq_bool audio 0) eqn:E; [|reflexivity].
      apply Qeq_bool_iff in E. exfalso.
      assert (Hr : ratio == 0) by (unfold ratio; rewrite E; reflexivity).
      rewrite Hr in Hlo. discriminate Hlo. }
    rewrite Ht. apply Qltb_lt in Habs, Hlo, Hhi. now rewrite Habs, Hlo, Hhi.
  - intros Habs. apply Qltb_ge in Habs. rewrite Habs.
    now destruct (truthy (Some audio)).
  - intros Hlo. apply Qltb_ge in Hlo. rewrite Hlo. cbn [andb].
    destruct (truthy (Some audio)); [|reflexivity].
    now destruct (Qltb (1 # 2) (Qabs (audio - lastEnd))).
  - intros Hhi. apply Qltb_ge in Hhi. rewrite Hhi, andb_false_r.
    destruct (truthy (Some audio)); [|reflexivity].
    now destruct (Qltb (1 # 2) (Qabs (audio - lastEnd))).
  - intros Hend Ha. unfold ratio. rewrite Hend, Ha. reflexivity.
Qed.

Lemma drift_correction_bounds_witness :
  timeScale (Some 115) [mkSegment (lit "a b") 0 100] = 115 / 100
  /\ timeScale (Some 200) [mkSegment (lit "a b") 0 100] = 1.
Proof.
  pose proof (drift_correction_bounds [] (mkSegment (lit "a b") 0 100) 115)
    as (H1 & _).
  pose proof (drift_correction_bounds [] (mkSegment (lit "a b") 0 100) 200)
    as (_ & _ & _ & _ & _ & H2).
  split.
  - apply H1; reflexivity.
  - apply H2; reflexivity.
Defined.

Section SchedulingFacts.

(** Evenly spaced start times [base + i * step], [i] from [k] on. *)
Lemma spaced_sorted (base step : Q) (n k : nat) :
  0 <= step ->
  StronglySorted Qle
    (List.map (fun i => base + ofNat i * step) (seq k n)).
Proof.
  intros Hstep. revert k.
  induction n as [|n IH]; intros k; cbn [seq List.map]; constructor.
  - apply IH.
  - apply Forall_forall. intros t Ht.
    apply in_map_iff in Ht as (j & <- & Hj). apply in_seq in Hj.
    apply Qplus_le_r. apply Qmult_le_compat_r; [|assumption].
    unfold ofNat. rewrite <- Zle_Qle. lia.
Qed.

Lemma mapi_from_spaced (base step : Q) (d : option Q) (ws : list ParsedWord) k :
  List.map wordStartTime
    (mapi_from k (fun word i => mkWord word (Some (base + ofNat i * step)) d) ws)
  = List.map (fun i => base + ofNat i * step) (seq k (List.length ws)).
Proof.
  revert k. induction ws as [|a t IH]; intros k; cbn; [reflexivity|].
  now rewrite IH.
Qed.

Lemma mapi_from_parsed (f : nat -> option Q) (d : option Q) ws k :
  List.map parsed (mapi_from k (fun word i => mkWord word (f i) d) ws) = ws.
Proof.
  revert k. induction ws as [|a t IH]; intros k; cbn; [reflexivity|].
  now rewrite IH.
Qed.

Lemma Forall_mapi_from {A B} (P : B -> Prop) (f : A -> nat -> B) l k :
  (forall a i, In a l -> P (f a i)) -> Forall P (mapi_from k f l).
Proof.
  revert k. induction l as [|a t IH]; intros k H; cbn; constructor.
  - apply H. now left.
  - apply IH. intros b i Hb. apply H. now right.
Qed.

Lemma Qdiv_nonneg a b : 0 <= a -> 0 < b -> 0 <= a / b.
Proof.
  intros Ha Hb. apply Qle_shift_div_l; [assumption|]. now rewrite Qmult_0_l.
Qed.

Lemma timeScale_pos audioDuration segs : 0 < timeScale audioDuration segs.
Proof.
  unfold timeScale.
  destruct audioDuration as [audio|]; [|reflexivity].
  destruct (rev segs) as [|lastSeg ?]; [reflexivity|].
  destruct (truthy (Some audio)); [|reflexivity].
  destruct (Qltb (1 # 2) _); [|reflexivity].
  destruct (Qltb (8 # 10) _) eqn:E; [|reflexivity].
  destruct (Qltb _ (12 # 10)); [|reflexivity].
  apply Qltb_lt in E. cbn [andb]. eapply Qlt_trans; [|exact E]. reflexivity.
Qed.

(** Timestamped mode: one segment. *)
Lemma segmentWords_sorted scale seg :
  0 <= scale -> seg_start seg <= seg_end seg ->
  StronglySorted Qle (List.map wordStartTime (segmentWords scale seg)).
Proof.
  intros Hs Hse. unfold segmentWords, mapi.
  rewrite mapi_from_spaced. apply spaced_sorted.
  destruct (0 <? _)%nat eqn:E; [|apply Qle_refl].
  apply Nat.ltb_lt in E. apply Qdiv_nonneg; [|now apply ofNat_pos].
  assert (H : seg_start seg * scale <= seg_end seg * scale)
    by now apply Qmult_le_compat_r.
  lra.
Qed.

Lemma pagedTotalDuration_nonneg audioDuration n :
  (forall d, audioDuration = Some d -> 0 <= d) ->
  0 <= pagedTotalDuration audioDuration n.
Proof.
  intros Ha. unfold pagedTotalDuration.
  assert (Hm : 0 <= Qmax 5000 (ofNat n * 500)).
  { eapply Qle_trans; [|apply Qmax_ge_l]. discriminate. }
  destruct audioDuration as [a|]; [|exact Hm].
  destruct (truthy (Some a)); [|exact Hm].
  specialize (Ha a eq_refl). lra.
Qed.

Lemma pageDurationOf_nonneg total n : 0 <= total -> 0 <= pageDurationOf total n.
Proof.
  intros Ht. unfold pageDurationOf.
  destruct (0 <? n)%nat eqn:E; [|assumption].
  apply Nat.ltb_lt in E. apply Qdiv_nonneg; [assumption|now apply ofNat_pos].
Qed.

(** Paged mode: one page. *)
Lemma pageWordsTimed_sorted pageDuration pageWords pageIndex :
  0 <= pageDuration ->
  StronglySorted Qle
    (List.map wordStartTime (pageWordsTimed pageDuration pageWords pageIndex)).
Proof.
  intros Hp. unfold pageWordsTimed, mapi.
  rewrite mapi_from_spaced. apply spaced_sorted.
  destruct (0 <? _)%nat eqn:E; [|apply Qle_refl].
  apply Nat.ltb_lt in E. apply Qdiv_nonneg; [lra|now apply ofNat_pos].
Qed.

Lemma summary_fold ws acc c :
  fst (fold_left summaryStep ws (acc, c)) = acc ++ prefixTimes c ws.
Proof.
  revert acc c. induction ws as [|a t IH]; intros acc c; cbn.
  - now rewrite app_nil_r.
  - rewrite IH, <- app_assoc. reflexivity.
Qed.

Lemma summaryWordTimings_prefix ws : summaryWordTimings ws = prefixTimes 0 ws.
Proof. unfold summaryWordTimings. now rewrite summary_fold. Qed.

Lemma wordDelay_nonneg wd : 0 <= wordDelay wd.
Proof.
  unfold wordDelay.
  destruct (_ || _); [discriminate|]. destruct (endsWithLit _ _); discriminate.
Qed.

Lemma prefixTimes_lower c ws : Forall (Qle c) (prefixTimes c ws).
Proof.
  revert c. induction ws as [|a t IH]; intros c; cbn; constructor.
  - apply Qle_refl.
  - eapply Forall_impl; [|apply IH]. intros q Hq.
    pose proof (wordDelay_nonneg a). lra.
Qed.

Lemma prefixTimes_sorted c ws : StronglySorted Qle (prefixTimes c ws).
Proof.
  revert c. induction ws as [|a t IH]; intros c; cbn; constructor.
  - apply IH.
  - eapply Forall_impl; [|apply prefixTimes_lower]. intros q Hq.
    pose proof (wordDelay_nonneg a). lra.
Qed.

Lemma previewWords_from pre c ws :
  List.map wordStartTime
    (mapi_from (List.length pre)
       (fun word i => mkWord word (nth_error (pre ++ prefixTimes c ws) i)
                             (Some defaultTypeSpeed))
       ws)
  = prefixTimes c ws.
Proof.
  revert pre c. induction ws as [|a t IH]; intros pre c; cbn [mapi_from List.map];
    [reflexivity|].
  cbn [prefixTimes]. f_equal.
  - unfold wordStartTime. cbn [absoluteStartTime].
    rewrite nth_error_app2 by lia. now rewrite Nat.sub_diag.
  - specialize (IH (pre ++ [c]) (c + wordDelay a)).
    rewrite length_app, Nat.add_1_r, <- app_assoc in IH. exact IH.
Qed.

Lemma previewWords_starts ws :
  List.map wordStartTime (previewWords ws) = summaryWordTimings ws.
Proof.
  unfold previewWords, mapi. rewrite summaryWordTimings_prefix.
  apply (previewWords_from [] 0 ws).
Qed.

End SchedulingFacts.

(* ===================================================================== *)
(** ** Layout engine *)
(* ===================================================================== *)

Section LayoutFacts.

Variable measureText : Q -> str -> Q.
Variable ws : list WordToLayout.
Variables (w h : Q).
Variable cfg : FontConfig.

Local Abbreviation wrapStep := (wrapStep measureText w).
Local Abbreviation wrapLines := (wrapLines measureText ws w).
Local Abbreviation fit_loop := (fit_loop measureText ws w h cfg).
Local Abbreviation fitContinue := (fitContinue measureText ws w h cfg).
Local Abbreviation totalHeightAt := (totalHeightAt measureText ws w cfg).
Local Abbreviation nextFontSize := (nextFontSize measureText ws w h cfg).

(** Wrapping moves words between the open line and the closed lines,
    and never reorders or drops one. *)
Lemma wrap_fold_words font l lines cur :
  let st := fold_left (wrapStep font) l (lines, cur) in
  List.concat (List.map line_words (fst st)) ++ snd st
  = List.concat (List.map line_words lines) ++ cur ++ l.
Proof.
  revert lines cur. induction l as [|a t IH]; intros lines cur; cbn [fold_left].
  - cbn. now rewrite app_nil_r.
  - cbv zeta in IH |- *.
    destruct (wrapStep font (lines, cur) a) as [lines' cur'] eqn:E.
    rewrite IH. unfold Player.wrapStep in E.
    destruct (_ && _); injection E as <- <-.
    + rewrite map_app, concat_app. cbn. rewrite app_nil_r.
      now rewrite <- !app_assoc.
    + now rewrite <- !app_assoc.
Qed.

Lemma wrapLines_words font :
  List.concat (List.map line_words (wrapLines font)) = ws.
Proof.
  unfold Player.wrapLines.
  pose proof (wrap_fold_words font ws [] []) as H. cbv zeta in H.
  destruct (fold_left _ ws ([], [])) as [lines cur]. cbn [fst snd] in H.
  cbn in H. destruct cur as [|c cur'].
  - cbn. now rewrite app_nil_r in H.
  - cbn [List.length Nat.ltb Nat.leb]. rewrite map_app, concat_app. cbn.
    now rewrite app_nil_r.
Qed.

(** A non-empty word list wraps into at least one line. *)
Lemma wrapLines_nonempty font : ws <> [] -> wrapLines font <> [].
Proof.
  intros Hne Hl. pose proof (wrapLines_words font) as H.
  rewrite Hl in H. cbn in H. congruence.
Qed.

(** What the loop hands back is the wrapping, the height and the next
    size of its last iteration, whose condition failed. *)
Lemma fit_loop_last font loops :
  exists f,
    fit_loop font loops
    = mkFit (wrapLines f) (totalHeightAt f) (nextFontSize f)
            (fit_loops (fit_loop font loops))
    /\ fitContinue f (fit_loops (fit_loop font loops) - 1) = false
    /\ (loops < fit_loops (fit_loop font loops))%nat.
Proof.
  funelim (fit_loop font loops).
  - destruct H as (f & H1 & H2 & H3). exists f.
    repeat split; [assumption|assumption|lia].
  - exists font. cbn [fit_loops].
    replace (S loops - 1)%nat with loops by lia.
    repeat split; [assumption|lia].
Qed.

Lemma fit_loop_cap font loops :
  (loops < MAX_LOOPS)%nat ->
  (fit_loops (fit_loop font loops) <= MAX_LOOPS)%nat.
Proof.
  funelim (fit_loop font loops); intros Hlt.
  - apply H. pose proof e as Hc. unfold Player.fitContinue in Hc.
    apply andb_prop in Hc as [_ Hc]. now apply Nat.ltb_lt in Hc.
  - cbn [fit_loops]. lia.
Qed.

Lemma placeWords_timed font sp cx cy l :
  List.map timed (placeWords measureText font sp cx cy l) = l.
Proof.
  revert cx. induction l as [|a t IH]; intros cx; cbn; [reflexivity|].
  now rewrite IH.
Qed.

Lemma place_lines_timed font sp (xOf : Line -> Q) (yOf : nat -> Q) lines k :
  List.map timed
    (List.concat
       (mapi_from k
          (fun line i =>
             placeWords measureText font sp (xOf line) (yOf i) (line_words line))
          lines))
  = List.concat (List.map line_words lines).
Proof.
  revert k. induction lines as [|a t IH]; intros k; cbn; [reflexivity|].
  now rewrite map_app, placeWords_timed, IH.
Qed.

(** The layout returns the words it was given, in their order, each with
    its timing untouched. *)
Lemma layout_keeps_words :
  List.map timed (calculateLayoutForWords measureText ws w h cfg) = ws.
Proof.
  unfold calculateLayoutForWords, mapi.
  rewrite (place_lines_timed _ _ (fun line => (w - line_width line) / 2)
             (fun i => _ + ofNat i * _)).
  unfold fitResult.
  destruct (fit_loop_last (size cfg) 0) as (f & -> & _).
  cbn [fit_lines]. apply wrapLines_words.
Qed.

End LayoutFacts.

(** C5, as stated, fails when the iteration cap comes first: the Dongle
    family at the Large size starts from 80 px, and twenty steps of 2 px
    end at 40 px.  On the 800 x 450 export canvas thirty ten-letter words
    then neither fit nor sit at the floor. *)
Lemma layout_cap_counterexample :
  100 <= 800 /\ 100 <= 450 /\ thirtyWords <> []
  /\ maxHeight 800 450
     < fit_totalHeight (fitResult halfEm thirtyWords 800 450 (scaledConfig Large Dongle))
  /\ 450 - padding 800
     < fit_totalHeight (fitResult halfEm thirtyWords 800 450 (scaledConfig Large Dongle))
  /\ MIN_FONT_SIZE
     < fit_fontSize (fitResult halfEm thirtyWords 800 450 (scaledConfig Large Dongle))
  /\ fit_loops (fitResult halfEm thirtyWords 800 450 (scaledConfig Large Dongle))
     = MAX_LOOPS.
Proof.
  repeat split; try discriminate; vm_compute; reflexivity.
Qed.

Section FitFacts.

Variable measureText : Q -> str -> Q.
Variable ws : list WordToLayout.
Variables (w h : Q).
Variable cfg : FontConfig.

Local Abbreviation fit_loop := (fit_loop measureText ws w h cfg).
Local Abbreviation totalHeightAt := (totalHeightAt measureText ws w cfg).
Local Abbreviation nextFontSize := (nextFontSize measureText ws w h cfg).

Lemma fitContinue_false font n :
  fitContinue measureText ws w h cfg font n = false ->
  totalHeightAt font <= maxHeight w h
  \/ nextFontSize font <= MIN_FONT_SIZE
  \/ (MAX_LOOPS <= S n)%nat.
Proof.
  unfold fitContinue. intros H.
  apply andb_false_iff in H as [H|H]; [apply andb_false_iff in H as [H|H]|].
  - left. now apply Qltb_ge.
  - right. left. now apply Qltb_ge.
  - right. right. apply Nat.ltb_ge in H. exact H.
Qed.

(** From a size of at most [50 - 2 * loops] the floor is reached no
    later than the cap. *)
Lemma fit_loop_small font loops :
  (loops < MAX_LOOPS)%nat ->
  font <= 50 - 2 * ofNat loops ->
  fit_totalHeight (fit_loop font loops) <= maxHeight w h
  \/ fit_fontSize (fit_loop font loops) <= MIN_FONT_SIZE.
Proof.
  funelim (fit_loop font loops); intros Hlt Hfont.
  - pose proof e as Hc. unfold fitContinue in Hc.
    apply andb_prop in Hc as [Hc Hcap]. apply andb_prop in Hc as [Hover _].
    apply Nat.ltb_lt in Hcap.
    apply H; [exact Hcap|].
    unfold Player.nextFontSize. rewrite Hover.
    rewrite ofNat_S. unfold FONT_STEP. lra.
  - cbn [fit_totalHeight fit_fontSize].
    destruct (fitContinue_false _ _ e) as [Hfit|[Hfloor|Hcap]];
      [now left|now right|].
    unfold Player.nextFontSize.
    destruct (Qltb (maxHeight w h) (totalHeightAt font)) eqn:E.
    + right. unfold MIN_FONT_SIZE, FONT_STEP.
      assert (Hl : loops = 19%nat) by (unfold MAX_LOOPS in *; lia).
      subst loops. change (ofNat 19) with 19 in Hfont. lra.
    + left. now apply Qltb_ge.
Qed.

End FitFacts.

(** C5 (amended).  The shrink-to-fit loop always ends, after at least one
    and at most twenty iterations.  When it ends, the total height
    (line count times the line height of the last wrapping) is at most the
    canvas height minus twice the padding, or the font size is at most the
    floor of 10, or twenty iterations have been made.  From a starting size
    of at most 50 px one of the first two holds. *)
Theorem layout_fit_floor_or_cap (measureText : Q -> str -> Q)
    (ws : list WordToLayout) (w h : Q) (cfg : FontConfig) :
  let st := fitResult measureText ws w h cfg in
  (1 <= fit_loops st <= MAX_LOOPS)%nat
  /\ (exists font,
        fit_lines st = wrapLines measureText ws w font
        /\ fit_totalHeight st
           = ofNat (List.length (fit_lines st)) * (font * lineHeightRatio cfg))
  /\ (fit_totalHeight st <= maxHeight w h
      \/ fit_fontSize st <= MIN_FONT_SIZE
      \/ fit_loops st = MAX_LOOPS)
  /\ (size cfg <= 50 ->
      fit_totalHeight st <= maxHeight w h \/ fit_fontSize st <= MIN_FONT_SIZE).
Proof.
  cbv zeta. unfold fitResult.
  pose proof (fit_loop_cap measureText ws w h cfg (size cfg) 0) as Hcap.
  destruct (fit_loop_last measureText ws w h cfg (size cfg) 0)
    as (f & Heq & Hstop & Hpos).
  assert (Hle : (fit_loops (fit_loop measureText ws w h cfg (size cfg) 0)
                 <= MAX_LOOPS)%nat) by (apply Hcap; unfold MAX_LOOPS; lia).
  repeat split.
  - lia.
  - exact Hle.
  - exists f. rewrite Heq. cbn [fit_lines fit_totalHeight]. split; reflexivity.
  - apply fitContinue_false in Hstop.
    rewrite Heq at 1 2. cbn [fit_totalHeight fit_fontSize].
    destruct Hstop as [Hfit|[Hfloor|Hc]]; [now left|now right; left|].
    right. right. lia.
  - intros Hsize. apply fit_loop_small; [unfold MAX_LOOPS; lia|].
    change (ofNat 0) with 0. lra.
Qed.

Lemma layout_fit_floor_or_cap_witness :
  fit_totalHeight (fitResult halfEm thirtyWords 800 450 (scaledConfig Large Sans))
  <= maxHeight 800 450
  \/ fit_fontSize (fitResult halfEm thirtyWords 800 450 (scaledConfig Large Sans))
     <= MIN_FONT_SIZE.
Proof.
  apply (layout_fit_floor_or_cap halfEm thirtyWords 800 450
           (scaledConfig Large Sans)).
  discriminate.
Defined.

(* ===================================================================== *)
(** ** Monotonic scheduling *)
(* ===================================================================== *)

Section TimelineFacts.

Variable measureText : Q -> str -> Q.
Variable p : Props.

Lemma layoutOf_starts l :
  startTimes (layoutOf measureText p l) = List.map wordStartTime l.
Proof.
  unfold startTimes, layoutOf.
  rewrite <- (map_map timed wordStartTime), layout_keeps_words. reflexivity.
Qed.

(** Source order: the words of a laid-out page are the parsed words the
    timeline builder was given, one for one. *)
Lemma layoutOf_source l :
  List.map (fun wd => parsed (timed wd)) (layoutOf measureText p l)
  = List.map parsed l.
Proof.
  unfold layoutOf.
  rewrite <- (map_map timed parsed), layout_keeps_words. reflexivity.
Qed.

Lemma reindex_layouts (pages : list SegmentPage) k :
  List.map page_layout
    (mapi_from k
       (fun pg i => mkPage (page_layout pg) (page_start pg) (page_end pg) i)
       pages)
  = List.map page_layout pages.
Proof.
  revert k. induction pages as [|a t IH]; intros k; cbn; [reflexivity|].
  now rewrite IH.
Qed.

Lemma segmentsTimeline_pages audioDuration segs :
  timelinePages (segmentsTimeline measureText p audioDuration segs)
  = List.map (fun seg =>
           layoutOf measureText p
             (segmentWords (timeScale audioDuration segs) seg))
        segs.
Proof.
  unfold segmentsTimeline, timelinePages, mapi.
  rewrite reindex_layouts, map_map. reflexivity.
Qed.

End TimelineFacts.

(** C3.  Monotonic scheduling: in the timestamped, the paged and the
    preview mode alike, the start times of the words of every page or
    segment that [animateScript] lays out are non-decreasing in the order
    of the source words ([layoutOf_source] shows that the laid-out order is
    the source order).  Segments are taken as the data model has them, with
    [start <= end], and a known audio duration is not negative. *)
Theorem monotonic_scheduling (measureText : Q -> str -> Q) (p : Props)
    (audioDuration : option Q) :
  (forall segs seg, transcriptSegments p = Some segs -> In seg segs ->
                    seg_start seg <= seg_end seg) ->
  (forall d, audioDuration = Some d -> 0 <= d) ->
  Forall (fun layout => StronglySorted Qle (startTimes layout))
         (timelinePages (animateScript measureText p audioDuration)).
Proof.
  intros Hsegs Haudio. unfold animateScript.
  assert (Hpreview : forall allWords,
    Forall (fun layout => StronglySorted Qle (startTimes layout))
      (timelinePages (previewTimeline measureText p allWords))).
  { intros allWords. cbn [previewTimeline timelinePages]. constructor; [|constructor].
    rewrite layoutOf_starts, previewWords_starts, summaryWordTimings_prefix.
    apply prefixTimes_sorted. }
  destruct (useSegments p).
  - destruct (transcriptSegments p) as [segs|] eqn:Et; [|apply Hpreview].
    rewrite segmentsTimeline_pages. apply Forall_map, Forall_forall.
    intros seg Hin. rewrite layoutOf_starts.
    apply segmentWords_sorted.
    + apply Qlt_le_weak, timeScale_pos.
    + now apply (Hsegs segs).
  - destruct (shouldUsePagedMode p audioDuration _); [|apply Hpreview].
    cbn [pagedTimeline timelinePages]. unfold mapi.
    apply Forall_mapi_from. intros pageWords pageIndex _.
    rewrite layoutOf_starts. apply pageWordsTimed_sorted.
    apply pageDurationOf_nonneg, pagedTotalDuration_nonneg, Haudio.
Qed.

Lemma monotonic_scheduling_witness :
  Forall (fun layout => StronglySorted Qle (startTimes layout))
    (timelinePages
       (animateScript halfEm
          (exportProps (lit "so it goes")
             (Some [mkSegment (lit "so it") 0 (3 # 2);
                    mkSegment (lit "goes") (3 # 2) 2])
             (Some (lit "clip.mp3")) false)
          (Some (21 # 10)))).
Proof.
  apply monotonic_scheduling.
  - intros segs seg [= <-] [<-|[<-|[]]]; discriminate.
  - intros d [= <-]. discriminate.
Defined.

(* ===================================================================== *)
(** ** Frame renderer: the active window *)
(* ===================================================================== *)

(** C6.  A word that starts at 1000 ms and is active for 500 ms is treated
    as active exactly when the elapsed time lies in [1000, 1500): it is not
    active before 1000 (it is not drawn at all), nor at 1500 or later.
    While active every span is painted in the highlight colour and the
    scale carries the bounce factor; otherwise neither is applied. *)
Theorem active_window (wd : Word) (elapsedTime fadeDuration : Q) :
  absoluteStartTime (timed wd) = Some 1000 ->
  duration (timed wd) = Some 500 ->
  (isActiveAt elapsedTime fadeDuration wd = true
   <-> 1000 <= elapsedTime /\ elapsedTime < 1500)
  /\ isActiveAt 1500 fadeDuration wd = false
  /\ (forall theme a,
        isActiveAt elapsedTime fadeDuration wd = true ->
        exists pt,
          renderPage theme a [wd] elapsedTime fadeDuration = [pt]
          /\ Forall (eq (highlightColor theme)) (pt_colors pt)
          /\ pt_finalScale pt
             = scale (pt_word pt) * activeScale true ((elapsedTime - 1000) / 500))
  /\ (forall theme a,
        isActiveAt elapsedTime fadeDuration wd = false ->
        Forall (fun pt =>
                  pt_finalScale pt = scale (pt_word pt) * 1
                  /\ pt_colors pt
                     = List.map (spanColor theme wd false)
                                (spans (parsed (timed wd))))
               (renderPage theme a [wd] elapsedTime fadeDuration)).
Proof.
  intros Hstart Hdur.
  assert (Hws : wordStartTime (timed wd) = 1000)
    by (unfold wordStartTime; now rewrite Hstart).
  assert (Hframe : forall t,
    wordFrame t fadeDuration wd =
    if Qltb (t - 1000) 0 then None
    else Some (mkFrame (Qmin 1 ((t - 1000) / fadeDuration))
                       (Qleb 0 (t - 1000) && Qltb (t - 1000) 500)
                       ((t - 1000) / 500))).
  { intros t. unfold wordFrame. rewrite Hws, Hdur. reflexivity. }
  assert (Hact : forall t,
    isActiveAt t fadeDuration wd = true <-> 1000 <= t /\ t < 1500).
  { intros t. unfold isActiveAt. rewrite Hframe.
    destruct (Qltb (t - 1000) 0) eqn:E0.
    - apply Qltb_lt in E0. split; [discriminate|]. intros [H1 _]. lra.
    - apply Qltb_ge in E0. cbn [fr_isActive].
      rewrite andb_true_iff, Qleb_le, Qltb_lt. split; intros [H1 H2]; split; lra. }
  split; [apply Hact|]. split; [|split].
  - destruct (isActiveAt 1500 fadeDuration wd) eqn:E; [|reflexivity].
    apply Hact in E. destruct E as [_ E]. discriminate E.
  - intros theme a Hon. unfold isActiveAt in Hon. unfold renderPage.
    cbn [flat_map]. rewrite Hframe in Hon |- *.
    destruct (Qltb (elapsedTime - 1000) 0); [discriminate|].
    cbn [fr_isActive] in Hon. rewrite Hon, app_nil_r.
    eexists; split; [reflexivity|].
    unfold animateWord. cbn [pt_colors pt_finalScale pt_word fr_isActive
                               fr_activeProgress].
    split; [|reflexivity].
    apply Forall_forall. intros col Hin.
    apply in_map_iff in Hin as (sp & <- & _). reflexivity.
  - intros theme a Hoff. unfold isActiveAt in Hoff. unfold renderPage.
    cbn [flat_map]. rewrite Hframe in Hoff |- *.
    destruct (Qltb (elapsedTime - 1000) 0); [constructor|].
    cbn [fr_isActive] in Hoff. rewrite Hoff, app_nil_r.
    constructor; [|constructor]. split; reflexivity.
Qed.

Lemma active_window_witness :
  isActiveAt 1499 FADE_DURATION
    (mkPositioned (mkWord (parseStyledWord (lit "*hi*")) (Some 1000) (Some 500))
                  0 0 0 1 0) = true
  /\ isActiveAt 1500 FADE_DURATION
       (mkPositioned (mkWord (parseStyledWord (lit "*hi*")) (Some 1000) (Some 500))
                     0 0 0 1 0) = false.
Proof.
  pose proof (active_window
    (mkPositioned (mkWord (parseStyledWord (lit "*hi*")) (Some 1000) (Some 500))
                  0 0 0 1 0) 1499 FADE_DURATION eq_refl eq_refl)
    as (Hiff & Hend & _).
  refine (conj (proj2 Hiff _) Hend).
  split; [discriminate|reflexivity].
Defined.

(* ===================================================================== *)
(** ** Capture pipeline: progress, render clock, recorder *)
(* ===================================================================== *)

Section ProgressFacts.









End ProgressFacts.




(** C8 (defect).  Where no audio clock serves the frame, the paged loop
    (without an audio source) and the preview loop measure
    [time - startTime]; the timestamped loop does not.  After a failed audio
    load it subtracts the wall-clock set-up time from the audio context's
    time: set up at 5000 ms, it reads -4900 ms a tenth of a second into the
    context's life, where [now - loopStartTime] is 100 ms.  Its branch for
    a missing audio context takes [performance.now()] as it is: a loop set
    up at 4000 ms reads 5000 ms, not 1000 ms, one second later.  The paged
    loop shares the first defect when an audio source was given. *)
Theorem segments_clock_fallback_defect :
  (forall startTime c,
      elapsedPaged None startTime c = frameTime c - startTime)
  /\ (forall total startTime c,
      elapsedPreview false total startTime c = frameTime c - startTime)
  /\ elapsedSegments
       (mkClock (Some (1 # 10))
                (audioStartTimeRef (setupAudio None AudioLoadFailed 0 5000))
                5100 5100) == -4900
  /\ ~ elapsedSegments
         (mkClock (Some (1 # 10))
                  (audioStartTimeRef (setupAudio None AudioLoadFailed 0 5000))
                  5100 5100) == 5100 - 5000
  /\ elapsedSegments (mkClock None 0 5000 5000) = 5000
  /\ ~ elapsedSegments (mkClock None 0 5000 5000) == 5000 - 4000
  /\ elapsedPaged (Some (lit "clip.mp3")) 5000
       (mkClock (Some (1 # 10))
                (audioStartTimeRef
                   (setupAudio (Some (lit "clip.mp3")) AudioLoadFailed 0 5000))
                5100 5100) == -4900.
Proof.
  split; [|split; [|split; [|split; [|split; [|split]]]]].
  - intros startTime c. unfold elapsedPaged.
    now destruct (audioContextTime c).
  - reflexivity.
  - reflexivity.
  - intros H. discriminate H.
  - reflexivity.
  - intros H. discriminate H.
  - reflexivity.
Qed.

Section RecorderFacts.

Variable p : Props.

Lemma concat_kept (chunks : list Blob) (data : Blob) :
  List.concat (ondataavailable chunks data) = List.concat chunks ++ data.
Proof.
  unfold ondataavailable. destruct data as [|b data']; cbn [List.length Nat.ltb Nat.leb].
  - now rewrite app_nil_r.
  - rewrite concat_app. cbn. now rewrite app_nil_r.
Qed.

(** The calls of a recorder run are those of [onstop] on chunks whose
    concatenation is all the data received before the stop. *)
Lemma recorderRun_stop chunks events :
  stopped events = true ->
  exists kept,
    recorderRun p chunks events = onstop p kept
    /\ newBlob kept = List.concat chunks ++ List.concat (dataBefore events).
Proof.
  revert chunks. induction events as [|[data|] rest IH]; intros chunks Hs.
  - discriminate.
  - cbn in Hs. destruct (IH (ondataavailable chunks data) Hs) as (kept & H1 & H2).
    exists kept. split; [exact H1|].
    rewrite H2, concat_kept. cbn. now rewrite app_assoc.
  - exists chunks. cbn. split; [reflexivity|].
    unfold newBlob. now rewrite app_nil_r.
Qed.

Lemma recorderRun_running chunks events :
  stopped events = false -> recorderRun p chunks events = [].
Proof.
  revert chunks. induction events as [|[data|] rest IH]; intros chunks Hs.
  - reflexivity.
  - cbn in Hs |- *. now apply IH.
  - discriminate.
Qed.

End RecorderFacts.

(** C9.  When the recorder stops and its chunks concatenate to a blob of
    size zero, [onComplete] is not called and the failure is reported
    through [onError] (when that prop was given; nothing else is called).
    Whenever [onComplete] is called, its artifact is the concatenation of
    the data received before the stop, and that blob is not empty. *)
Theorem empty_artifact_failure (p : Props) (events : list RecorderEvent) :
  let calls := recorderRun p [] events in
  let blob := List.concat (dataBefore events) in
  (stopped events = true -> List.length blob = 0%nat ->
   (forall url, ~ In (OnComplete url) calls)
   /\ calls = (if hasOnError p
               then [OnError (lit "Failed to finalize video file.")] else []))
  /\ (forall url, In (OnComplete url) calls ->
      url = blob /\ (0 < List.length url)%nat /\ stopped events = true).
Proof.
  cbv zeta. split.
  - intros Hs Hlen.
    destruct (recorderRun_stop p [] events Hs) as (kept & -> & Hblob).
    cbn [List.concat app] in Hblob. unfold onstop. rewrite Hblob, Hlen.
    cbn [Nat.eqb]. split; [|reflexivity].
    intros url Hin. destruct (hasOnError p); [destruct Hin as [H|[]]|destruct Hin].
    discriminate H.
  - intros url Hin. destruct (stopped events) eqn:Hs.
    + destruct (recorderRun_stop p [] events Hs) as (kept & Hrun & Hblob).
      rewrite Hrun in Hin. cbn [List.concat app] in Hblob.
      unfold onstop in Hin. rewrite Hblob in Hin.
      destruct (List.length _ =? 0)%nat eqn:E.
      * exfalso. destruct (hasOnError p); [destruct Hin as [H|[]]|destruct Hin].
        discriminate H.
      * destruct Hin as [H|[]]. injection H as <-.
        apply Nat.eqb_neq in E. repeat split. lia.
    + rewrite recorderRun_running in Hin by assumption. destruct Hin.
Qed.

Lemma empty_artifact_failure_witness :
  (forall url,
      ~ In (OnComplete url)
           (recorderRun (exportProps (lit "so it goes") None None false) []
                        [DataAvailable []; Stopped]))
  /\ recorderRun (exportProps (lit "so it goes") None None false) []
                 [DataAvailable []; Stopped]
     = [OnError (lit "Failed to finalize video file.")].
Proof.
  exact (proj1 (empty_artifact_failure
                  (exportProps (lit "so it goes") None None false)
                  [DataAvailable []; Stopped]) eq_refl eq_refl).
Defined.

(* ===================================================================== *)
(** ** Script service: balanced emphasis markers *)
(* ===================================================================== *)

Section CountFacts.

Lemma count_app c a b : count c (a ++ b) = (count c a + count c b)%nat.
Proof. unfold count. now rewrite filter_app, length_app. Qed.

Lemma count_rev c s : count c (rev s) = count c s.
Proof.
  induction s as [|x t IH]; [reflexivity|].
  cbn [rev]. rewrite count_app, IH. unfold count. cbn.
  destruct (c =? x)%N; cbn; lia.
Qed.

Lemma is_space_not_star x : is_space x = true -> (star =? x)%N = false.
Proof.
  intros H. destruct (star =? x)%N eqn:E; [|reflexivity].
  apply N.eqb_eq in E. subst x. discriminate H.
Qed.

Lemma count_dropWhile_space s : count star (dropWhile is_space s) = count star s.
Proof.
  induction s as [|x t IH]; [reflexivity|]. cbn [dropWhile].
  destruct (is_space x) eqn:E; [|reflexivity].
  rewrite IH. unfold count. cbn [filter]. now rewrite (is_space_not_star x E).
Qed.

Lemma count_trim s : count star (trim s) = count star s.
Proof.
  unfold trim, trimEnd, trimStart.
  now rewrite count_rev, count_dropWhile_space, count_rev, count_dropWhile_space.
Qed.

Lemma endsWithChar_inv c s :
  endsWithChar c s = true -> exists m, s = m ++ [c].
Proof.
  unfold endsWithChar. intros H. destruct (rev s) as [|x t] eqn:E; [discriminate|].
  cbn in H. apply N.eqb_eq in H. subst x. exists (rev t).
  rewrite <- (rev_involutive s), E. reflexivity.
Qed.

Lemma count_dropLast s :
  endsWithChar star s = true -> count star s = S (count star (dropLast s)).
Proof.
  intros H. apply endsWithChar_inv in H as (m & ->).
  unfold dropLast. rewrite removelast_last, count_app. cbn. lia.
Qed.

Lemma count_slice_1_m1 s :
  startsWithChar star s = true -> endsWithChar star s = true ->
  (10 <? List.length s)%nat = true ->
  count star s = S (S (count star (slice_1_m1 s))).
Proof.
  intros Hs He Hl. apply Nat.ltb_lt in Hl.
  apply endsWithChar_inv in He as (m & ->).
  destruct m as [|x m']; [cbn in Hl; lia|].
  cbn in Hs. apply N.eqb_eq in Hs. subst x.
  unfold slice_1_m1. cbn [tl app]. rewrite removelast_last.
  change (star :: m' ++ [star]) with ([star] ++ m' ++ [star]).
  rewrite !count_app. cbn. lia.
Qed.

Lemma count_none s : existsb (N.eqb star) s = false -> count star s = 0%nat.
Proof.
  induction s as [|x t IH]; [reflexivity|]. cbn [existsb].
  intros H. apply orb_false_iff in H as [Hx Ht].
  unfold count in *. cbn [filter]. rewrite Hx. now apply IH.
Qed.

Lemma list_sum_cons a l : list_sum (a :: l) = (a + list_sum l)%nat.
Proof. reflexivity. Qed.

Lemma count_cons c x s :
  count c (x :: s) = ((if (c =? x)%N then 1 else 0) + count c s)%nat.
Proof. unfold count. cbn [filter]. now destruct (c =? x)%N. Qed.

Lemma count_split_on (q : char -> bool) s :
  q star = false ->
  list_sum (List.map (count star) (split_on q s)) = count star s.
Proof.
  intros Hq. induction s as [|x t IH]; [reflexivity|]. cbn [split_on].
  rewrite count_cons. destruct (q x) eqn:E.
  - cbn [List.map]. rewrite list_sum_cons, IH.
    destruct (star =? x)%N eqn:Ex; [|reflexivity].
    apply N.eqb_eq in Ex. congruence.
  - destruct (split_on q t) as [|wd wds]; cbn [List.map] in IH |- *.
    + rewrite list_sum_cons, count_cons. cbn in IH |- *. lia.
    + rewrite list_sum_cons in IH |- *. rewrite count_cons. lia.
Qed.

Lemma count_join sep l :
  count star sep = 0%nat ->
  count star (join sep l) = list_sum (List.map (count star) l).
Proof.
  intros Hsep. induction l as [|wd [|wd' t] IH]; [reflexivity| |].
  - cbn [join List.map]. rewrite list_sum_cons. cbn. lia.
  - change (join sep (wd :: wd' :: t)) with (wd ++ sep ++ join sep (wd' :: t)).
    rewrite !count_app, Hsep, IH. cbn [List.map].
    rewrite !list_sum_cons. lia.
Qed.

Lemma sum_all_zero (f : str -> nat) l :
  Forall (fun wd => f wd = 0%nat) l -> list_sum (List.map f l) = 0%nat.
Proof.
  induction 1 as [|a t Ha _ IH]; [reflexivity|].
  cbn [List.map]. rewrite list_sum_cons. lia.
Qed.

Lemma sum_replaceAt (f : str -> nat) i v l :
  (i < List.length l)%nat ->
  Forall (fun wd => f wd = 0%nat) l ->
  list_sum (List.map f (replaceAt i v l)) = f v.
Proof.
  revert i. induction l as [|a t IH]; intros i Hi Hall; [cbn in Hi; lia|].
  inversion Hall as [|? ? Ha Ht]; subst.
  destruct i as [|j]; cbn [replaceAt List.map]; rewrite list_sum_cons.
  - rewrite (sum_all_zero f t Ht). lia.
  - rewrite Ha, IH; [reflexivity|cbn in Hi; lia|assumption].
Qed.

Lemma sum_zero_all (l : list str) :
  list_sum (List.map (count star) l) = 0%nat ->
  Forall (fun wd => count star wd = 0%nat) l.
Proof.
  induction l as [|a t IH]; cbn [List.map]; [constructor|].
  rewrite list_sum_cons. intros H. constructor; [lia|apply IH; lia].
Qed.

Lemma span_app q s : fst (span q s) ++ snd (span q s) = s.
Proof.
  induction s as [|x t IH]; [reflexivity|]. cbn [span].
  destruct (q x); [|reflexivity].
  destruct (span q t) as [a b]. cbn in *. now rewrite IH.
Qed.

Lemma wordMatch_parts s prefix core suffix :
  wordMatch s = Some (prefix, core, suffix) -> prefix ++ core ++ suffix = s.
Proof.
  unfold wordMatch.
  pose proof (span_app (fun c => negb (wordChar c)) s) as H1.
  destruct (span (fun c => negb (wordChar c)) s) as [pre rest].
  pose proof (span_app wordChar rest) as H2.
  destruct (span wordChar rest) as [co su]. cbn [fst snd] in *.
  destruct (_ && _); [|discriminate].
  intros [= <- <- <-]. now rewrite H2.
Qed.

Lemma at_index_some {A} (l : list A) i a :
  at_index l i = Some a -> (Z.to_nat i < List.length l)%nat /\ In a l.
Proof.
  unfold at_index. destruct (i <? 0)%Z; [discriminate|]. intros H. split.
  - apply nth_error_Some. congruence.
  - eapply nth_error_In; eauto.
Qed.

End CountFacts.

Section BalanceFacts.

Lemma nounEndings_plain e :
  In e (lit "undefined" :: nounEndings) -> count star e = 0%nat.
Proof.
  intros H. repeat (destruct H as [<-|H]; [reflexivity|]). destruct H.
Qed.

(** An odd count is made even by dropping a closing star or by adding
    one. *)
Lemma balance_step s :
  Nat.even
    (count star
       (if Nat.odd (count star s)
        then if endsWithChar star s then dropLast s else s ++ [star]
        else s)) = true.
Proof.
  destruct (Nat.odd (count star s)) eqn:Hodd.
  - destruct (endsWithChar star s) eqn:He.
    + rewrite (count_dropLast s He), Nat.odd_succ in Hodd. exact Hodd.
    + rewrite count_app. change (count star [star]) with 1%nat.
      now rewrite Nat.add_1_r, Nat.even_succ.
  - now rewrite <- Nat.negb_odd, Hodd.
Qed.

Lemma repairKoreanSentence_even r text :
  Nat.even (count star (repairKoreanSentence r text)) = true.
Proof.
  unfold repairKoreanSentence.
  set (repaired1 := if Nat.odd (count star (trim text)) then _ else _).
  assert (H1 : Nat.even (count star repaired1) = true) by apply balance_step.
  set (repaired := if _ && _ && _ then _ else _).
  assert (H2 : Nat.even (count star repaired) = true).
  { subst repaired.
    destruct (startsWithChar star repaired1) eqn:Hs; [|exact H1].
    destruct (endsWithChar star repaired1) eqn:He; [|exact H1].
    destruct (10 <? List.length repaired1)%nat eqn:Hl; [|exact H1].
    cbn [andb]. rewrite (count_slice_1_m1 _ Hs He Hl) in H1. exact H1. }
  clearbody repaired. clear H1 repaired1.
  destruct (includes danglingModifiers _).
  - set (randomEnding := match at_index nounEndings _ with
                         | Some e => e
                         | None => lit "undefined"
                         end).
    assert (He : count star randomEnding = 0%nat).
    { apply nounEndings_plain. subst randomEnding.
      destruct (at_index nounEndings _) as [e|] eqn:E; [|now left].
      right. now apply at_index_some in E. }
    rewrite !count_app, He. change (count star []) with 0%nat.
    now rewrite !Nat.add_0_r.
  - destruct (negb (includes sentenceEnds _)); [|exact H2].
    destruct (negb (str_eqb (lastChar repaired) [star])); [|exact H2].
    rewrite count_app. change (count star (lit ".")) with 0%nat.
    now rewrite Nat.add_0_r.
Qed.

Lemma highlightFallback_two r text s :
  existsb (N.eqb star) text = false ->
  highlightFallback r (split_on (N.eqb c_space) text) = Some s ->
  count star s = 2%nat.
Proof.
  intros Hnone. unfold highlightFallback.
  set (ws := split_on (N.eqb c_space) text).
  assert (Hall : Forall (fun wd => count star wd = 0%nat) ws).
  { apply sum_zero_all. subst ws.
    rewrite count_split_on by reflexivity. now apply count_none. }
  destruct (if (0 <? _)%nat then _ else _) as [ti|]; [|discriminate].
  destruct (at_index ws ti) as [targetWord|] eqn:Et; [|discriminate].
  apply at_index_some in Et as [Hlt Hin].
  intros [= <-]. rewrite count_join by reflexivity.
  rewrite sum_replaceAt by assumption.
  assert (Hw : count star targetWord = 0%nat)
    by (rewrite Forall_forall in Hall; now apply Hall).
  destruct (wordMatch targetWord) as [[[prefix core] suffix]|] eqn:Em.
  - apply wordMatch_parts in Em. rewrite <- Em in Hw.
    rewrite !count_app in Hw.
    repeat (rewrite ?count_app, ?count_cons, ?N.eqb_refl). lia.
  - repeat (rewrite ?count_app, ?count_cons, ?N.eqb_refl).
    change (count star []) with 0%nat. lia.
Qed.

End BalanceFacts.

(** C10.  Every script that [generateAutopsyScript] returns holds an even
    number of stars: after the Korean repair, after the English clean-up,
    and after the fallback that stars one word of a text without stars,
    whichever values [Math.random()] takes. *)
Theorem balanced_emphasis_markers (language : Language)
    (responseText : option str) (r1 r2 : Q) (scriptText : str) :
  generateAutopsyScript language responseText r1 r2 = Returned scriptText ->
  Nat.even (count star scriptText) = true.
Proof.
  unfold generateAutopsyScript.
  destruct responseText as [[|c0 text0]|]; try discriminate.
  set (text := match language with Korean => _ | English => _ end).
  assert (Heven : Nat.even (count star text) = true).
  { subst text. destruct language.
    - apply repairKoreanSentence_even.
    - destruct (Nat.odd (count star (c0 :: text0))) eqn:Hodd.
      + rewrite count_app. change (count star [star]) with 1%nat.
        now rewrite Nat.add_1_r, Nat.even_succ.
      + now rewrite <- Nat.negb_odd, Hodd. }
  clearbody text.
  destruct (existsb (N.eqb star) text) eqn:Hstar; cbn [negb].
  - intros [= <-]. now rewrite count_trim.
  - destruct (2 <? _)%nat.
    + destruct (highlightFallback r2 _) as [s|] eqn:Hf; [|discriminate].
      intros [= <-]. now rewrite (highlightFallback_two _ _ _ Hstar Hf).
    + intros [= <-]. now rewrite count_trim.
Qed.

Lemma balanced_emphasis_markers_witness :
  Nat.even (count star (lit "He is *busy*.")) = true.
Proof.
  exact (balanced_emphasis_markers English (Some (lit "He is busy.")) 0 (1 # 2)
           (lit "He is *busy*.") eq_refl).
Defined.

Section ReturnFacts.

Lemma randomIndex_range r n :
  0 <= r -> r < 1 -> (0 < n)%nat ->
  (0 <= randomIndex r n < Z.of_nat n)%Z.
Proof.
  intros H0 H1 Hn. unfold randomIndex. pose proof (ofNat_pos n Hn) as Hp.
  split.
  - change 0%Z with (Qfloor 0). apply Qfloor_resp_le.
    apply Qmult_le_0_compat; [assumption|now apply Qlt_le_weak].
  - rewrite Zlt_Qlt. eapply Qle_lt_trans; [apply Qfloor_le|].
    fold (ofNat n). rewrite <- (Qmult_1_l (ofNat n)) at 2.
    now apply Qmult_lt_compat_r.
Qed.

Lemma at_index_in_range {A} (l : list A) i :
  (0 <= i < Z.of_nat (List.length l))%Z -> exists a, at_index l i = Some a.
Proof.
  intros [H0 H1]. unfold at_index.
  destruct (i <? 0)%Z eqn:E; [apply Z.ltb_lt in E; lia|].
  destruct (nth_error l (Z.to_nat i)) as [a|] eqn:En; [now exists a|].
  apply nth_error_None in En. lia.
Qed.




End ReturnFacts.

(* ===================================================================== *)
(** ** Further properties of the player *)
(* ===================================================================== *)

Section ChunkFacts.

Context {A : Type}.

Lemma firstn_add (a b : nat) (l : list A) :
  firstn (a + b) l = firstn a l ++ firstn b (skipn a l).
Proof.
  revert l. induction a as [|a IH]; intros l; [reflexivity|].
  destruct l as [|x t]; cbn.
  - now rewrite firstn_nil.
  - now rewrite IH.
Qed.

Lemma slice_page (i sz : nat) (l : list A) :
  slice (i * sz) (i * sz + sz) l = firstn sz (skipn (i * sz) l).
Proof. unfold slice. f_equal. lia. Qed.

Lemma chunk_prefix (arr : list A) (sz k : nat) :
  List.concat
    (List.map (fun i => slice (i * sz) (i * sz + sz) arr) (seq 0 k))
  = firstn (k * sz) arr.
Proof.
  induction k as [|k IH]; [reflexivity|].
  rewrite seq_S, map_app, concat_app, IH. cbn [List.map List.concat Nat.add].
  rewrite app_nil_r, slice_page.
  replace (S k * sz)%nat with (k * sz + sz)%nat by lia.
  now rewrite firstn_add.
Qed.

Lemma ceil_div_bounds (n sz : nat) :
  (0 < sz)%nat ->
  (n <= ceil_div n sz * sz)%nat
  /\ (forall i, i < ceil_div n sz -> i * sz < n)%nat.
Proof.
  intros Hsz. unfold ceil_div.
  pose proof (Nat.div_mod_eq (n + sz - 1) sz) as Hd.
  pose proof (Nat.mod_upper_bound (n + sz - 1) sz) as Hm.
  set (q := ((n + sz - 1) / sz)%nat) in *.
  set (r := ((n + sz - 1) mod sz)%nat) in *.
  split; [nia|]. intros i Hi. nia.
Qed.

End ChunkFacts.

(** X1.  Paging loses nothing: for a positive page size the pages of
    [chunk], put end to end, are the array; there are [ceil(n / size)] of
    them, none is empty, none holds more than [size] elements, and every
    page but the last holds exactly [size]. *)
Theorem chunk_pages {A : Type} (arr : list A) (sz : nat) :
  (0 < sz)%nat ->
  List.concat (chunk arr sz) = arr
  /\ List.length (chunk arr sz) = ceil_div (List.length arr) sz
  /\ (forall i pg, nth_error (chunk arr sz) i = Some pg ->
        (1 <= List.length pg <= sz)%nat
        /\ ((S i < List.length (chunk arr sz))%nat -> List.length pg = sz)).
Proof.
  intros Hsz. destruct (ceil_div_bounds (List.length arr) sz Hsz) as [Hup Hlow].
  unfold chunk. split; [|split].
  - rewrite chunk_prefix. now apply firstn_all2.
  - now rewrite length_map, length_seq.
  - intros i pg Hpg. rewrite length_map, length_seq.
    assert (Hi : (i < ceil_div (List.length arr) sz)%nat).
    { assert (H : nth_error
                    (List.map (fun i0 => slice (i0 * sz) (i0 * sz + sz) arr)
                       (seq 0 (ceil_div (List.length arr) sz))) i <> None)
        by congruence.
      apply nth_error_Some in H. now rewrite length_map, length_seq in H. }
    rewrite nth_error_map, nth_error_seq in Hpg.
    destruct (i <? _)%nat eqn:E; [|apply Nat.ltb_ge in E; lia].
    cbn [option_map] in Hpg. injection Hpg as <-.
    change (0 + i)%nat with i.
    rewrite slice_page, length_firstn, length_skipn.
    pose proof (Hlow i Hi) as H1. split; [lia|].
    intros Hnext. pose proof (Hlow (S i) Hnext) as H2. cbn in H2. lia.
Qed.

Lemma chunk_pages_witness :
  List.concat (chunk [1; 2; 3; 4; 5; 6; 7]%nat WORDS_PER_PAGE)
  = [1; 2; 3; 4; 5; 6; 7]%nat.
Proof.
  exact (proj1 (chunk_pages [1; 2; 3; 4; 5; 6; 7]%nat WORDS_PER_PAGE
                  (Nat.lt_0_succ 4))).
Defined.

Section SplitFacts.

Variable sep : char -> bool.

Lemma split_on_nonnil s : split_on sep s <> [].
Proof.
  destruct s as [|c t]; cbn; [discriminate|].
  destruct (sep c); [discriminate|]. destruct (split_on sep t); discriminate.
Qed.

Lemma split_on_pieces s :
  Forall (fun piece => forallb (fun c => negb (sep c)) piece = true)
         (split_on sep s).
Proof.
  induction s as [|c t IH]; cbn [split_on]; [repeat constructor|].
  destruct (sep c) eqn:E; [constructor; [reflexivity|exact IH]|].
  destruct (split_on sep t) as [|wd wds]; [repeat constructor; cbn; now rewrite E|].
  inversion IH as [|? ? Hw Hws]; subst. constructor; [|assumption].
  cbn. now rewrite E.
Qed.

Lemma split_on_concat s :
  List.concat (split_on sep s) = filter (fun c => negb (sep c)) s.
Proof.
  induction s as [|c t IH]; cbn [split_on filter]; [reflexivity|].
  destruct (sep c) eqn:E; cbn [negb]; [exact IH|].
  destruct (split_on sep t) as [|wd wds]; cbn in IH |- *; now rewrite <- IH.
Qed.

Lemma concat_filter_nonempty (l : list str) :
  List.concat (filter nonempty l) = List.concat l.
Proof.
  induction l as [|a t IH]; [reflexivity|]. cbn [filter].
  destruct a as [|c a']; cbn [nonempty]; [exact IH|]. cbn. now rewrite IH.
Qed.

End SplitFacts.

(** X2.  The words of a script: every word is non-empty and free of white
    space, and the words put end to end are the script with its white
    space removed, so that splitting drops white space and nothing else. *)
Theorem script_words (scriptText : str) :
  Forall (fun wd => wd <> []
                    /\ forallb (fun c => negb (is_space c)) wd = true)
         (words scriptText)
  /\ List.concat (words scriptText)
     = filter (fun c => negb (is_space c)) scriptText.
Proof.
  unfold words. split.
  - apply Forall_forall. intros wd Hin. apply filter_In in Hin as [Hin Hne].
    split; [now destruct wd|].
    pose proof (split_on_pieces is_space scriptText) as H.
    rewrite Forall_forall in H. now apply H.
  - now rewrite concat_filter_nonempty, split_on_concat.
Qed.

Section ParamFacts.

Lemma parse_params_fold params :
  parse_params params
  = fold_left paramStep (split_on (N.eqb c_bar) params) plainStyle.
Proof. reflexivity. Qed.

Lemma fold_params_last parts st :
  let r := rev (List.map trim parts) in
  effect (fold_left paramStep parts st)
  = match find isEffectName r with
    | Some t => effect_of t
    | None => effect st
    end
  /\ color (fold_left paramStep parts st)
     = match find (fun t => negb (isEffectName t)) r with
       | Some t => Some t
       | None => color st
       end.
Proof.
  cbv zeta. revert st.
  induction parts as [|part rest IH] using rev_ind; intros st; [now split|].
  rewrite fold_left_app, map_app, rev_app_distr. cbn [fold_left List.map rev app find].
  destruct (IH st) as [He Hc]. unfold paramStep at 1 3.
  destruct (effect_of (trim part)) as [e|] eqn:E.
  - assert (Hn : isEffectName (trim part) = true)
      by (unfold isEffectName; now rewrite E).
    rewrite Hn. cbn [effect color negb]. split; [now rewrite E|exact Hc].
  - assert (Hn : isEffectName (trim part) = false)
      by (unfold isEffectName; now rewrite E).
    rewrite Hn. cbn [effect color negb]. split; [exact He|reflexivity].
Qed.

End ParamFacts.

(** X3.  A style list is read with the last entry of each kind winning:
    the effect is the last part (trimmed) that names an effect, if any,
    and the colour is the last part that does not, if any.  An effect
    and a colour can therefore come in either order. *)
Theorem style_list_last_wins (params : str) :
  effect (parse_params params)
  = match find isEffectName (rev (paramParts params)) with
    | Some t => effect_of t
    | None => None
    end
  /\ color (parse_params params)
     = find (fun t => negb (isEffectName t)) (rev (paramParts params)).
Proof.
  rewrite parse_params_fold. unfold paramParts.
  destruct (fold_params_last (split_on (N.eqb c_bar) params) plainStyle)
    as [He Hc].
  split; [exact He|]. rewrite Hc.
  destruct (find (fun t => negb (isEffectName t)) _); reflexivity.
Qed.

Section DirectiveFacts.

Lemma run_until_stop stop g rest :
  existsb (N.eqb stop) g = false ->
  run_until stop (g ++ stop :: rest) = (g, stop :: rest).
Proof.
  induction g as [|c g' IH]; cbn [existsb app run_until].
  - now rewrite N.eqb_refl.
  - rewrite (N.eqb_sym stop c). intros H. apply orb_false_iff in H as [Hc Hg].
    now rewrite Hc, IH.
Qed.

Lemma match_here_directive t p post :
  t <> [] -> existsb (N.eqb c_rbrack) t = false ->
  p <> [] -> existsb (N.eqb c_rparen) p = false ->
  match_here (c_lbrack :: t ++ c_rbrack :: c_lparen :: p ++ c_rparen :: post)
  = Some (t, p, post).
Proof.
  intros Ht Htc Hp Hpc. cbn [match_here]. rewrite N.eqb_refl.
  rewrite (run_until_stop c_rbrack t _ Htc).
  destruct t as [|a t']; [congruence|]. rewrite N.eqb_refl.
  rewrite (run_until_stop c_rparen p _ Hpc).
  destruct p as [|b p']; [congruence|]. reflexivity.
Qed.

Lemma regex_exec_directive pre t p post :
  existsb (N.eqb c_lbrack) pre = false ->
  t <> [] -> existsb (N.eqb c_rbrack) t = false ->
  p <> [] -> existsb (N.eqb c_rparen) p = false ->
  regex_exec (pre ++ c_lbrack :: t ++ c_rbrack :: c_lparen :: p ++ c_rparen :: post)
  = Some (pre, t, p, post).
Proof.
  intros Hpre Ht Htc Hp Hpc. induction pre as [|c pre' IH].
  - cbn [app regex_exec]. now rewrite match_here_directive.
  - cbn [existsb] in Hpre. apply orb_false_iff in Hpre as [Hc Hpre'].
    cbn [app regex_exec match_here]. rewrite N.eqb_sym, Hc.
    now rewrite (IH Hpre').
Qed.

Lemma parse_loop_match s acc clean pre g1 g2 rest :
  regex_exec s = Some (pre, g1, g2, rest) ->
  parse_loop s acc clean
  = parse_loop rest
      ((if nonempty pre then acc ++ [mkSpan pre plainStyle] else acc)
       ++ [mkSpan g1 (parse_params g2)])
      ((if nonempty pre then clean ++ pre else clean) ++ g1).
Proof.
  funelim (parse_loop s acc clean); intros Hm.
  - rewrite e in Hm. injection Hm as <- <- <- <-. reflexivity.
  - congruence.
Qed.

End DirectiveFacts.

(** X4.  One well-formed directive inside a word: with plain text before
    and after it (no opening bracket), a literal text without closing
    bracket and a style list without closing parenthesis, both non-empty,
    the token's clean text is the word without the markup, and its spans
    are the text before, the styled literal, and the text after, the plain
    ones only when non-empty. *)
Theorem directive_parses (pre t p post : str) :
  existsb (N.eqb c_lbrack) pre = false ->
  t <> [] -> existsb (N.eqb c_rbrack) t = false ->
  p <> [] -> existsb (N.eqb c_rparen) p = false ->
  existsb (N.eqb c_lbrack) post = false ->
  startsWithChar star
    (pre ++ c_lbrack :: t ++ c_rbrack :: c_lparen :: p ++ c_rparen :: post)
  = false ->
  endsWithChar star
    (pre ++ c_lbrack :: t ++ c_rbrack :: c_lparen :: p ++ c_rparen :: post)
  = false ->
  parseStyledWord
    (pre ++ c_lbrack :: t ++ c_rbrack :: c_lparen :: p ++ c_rparen :: post)
  = mkParsed (pre ++ t ++ post) false
      ((if nonempty pre then [mkSpan pre plainStyle] else [])
       ++ [mkSpan t (parse_params p)]
       ++ (if nonempty post then [mkSpan post plainStyle] else [])).
Proof.
  intros Hpre Ht Htc Hp Hpc Hpost Hs He. unfold parseStyledWord.
  rewrite Hs. cbn [andb]. unfold stripStars.
  rewrite (stripLeadingStar_keep _ Hs), (stripTrailingStar_keep _ He).
  rewrite (parse_loop_match _ _ _ _ _ _ _
             (regex_exec_directive pre t p post Hpre Ht Htc Hp Hpc)).
  rewrite parse_loop_plain by assumption.
  destruct pre as [|a pre']; destruct post as [|b post']; cbn [nonempty app];
    rewrite ?app_nil_r; try reflexivity.
  now rewrite <- app_assoc.
Qed.

Lemma directive_parses_witness :
  parseStyledWord (lit "a[bc](red|wiggle)d")
  = mkParsed (lit "abcd") false
      [mkSpan (lit "a") plainStyle;
       mkSpan (lit "bc") (parse_params (lit "red|wiggle"));
       mkSpan (lit "d") plainStyle].
Proof.
  refine (directive_parses (lit "a") (lit "bc") (lit "red|wiggle") (lit "d")
            eq_refl _ eq_refl _ eq_refl eq_refl eq_refl eq_refl);
    discriminate.
Defined.

Section WrapFacts.

Variable measureText : Q -> str -> Q.
Variable ws : list WordToLayout.
Variables (w font : Q).

(** What every closed line satisfies. *)
Let goodLine (line : Line) : Prop :=
  line_words line <> []
  /\ line_width line = measureText font (lineText (line_words line))
  /\ (List.length (line_words line) = 1%nat \/ line_width line <= maxWidth w).

(** What the open line satisfies. *)
Let goodOpen (cur : list WordToLayout) : Prop :=
  cur = [] \/ List.length cur = 1%nat
  \/ measureText font (lineText cur) <= maxWidth w.

Lemma wrap_fold_good l lines cur :
  Forall goodLine lines -> goodOpen cur ->
  Forall goodLine (fst (fold_left (wrapStep measureText w font) l (lines, cur)))
  /\ goodOpen (snd (fold_left (wrapStep measureText w font) l (lines, cur))).
Proof.
  revert lines cur. induction l as [|a t IH]; intros lines cur Hl Hc;
    cbn [fold_left]; [now split|].
  destruct (wrapStep measureText w font (lines, cur) a) as [lines' cur'] eqn:E.
  unfold wrapStep in E.
  destruct (Qltb (maxWidth w) _) eqn:Ew; cbn [andb] in E.
  - destruct (0 <? List.length cur)%nat eqn:En; injection E as <- <-.
    + apply IH; [|right; left; reflexivity].
      apply Forall_app. split; [assumption|]. constructor; [|constructor].
      apply Nat.ltb_lt in En. unfold goodLine. cbn [line_words line_width].
      split; [intros ->; cbn in En; lia|]. split; [reflexivity|].
      destruct Hc as [->|[H1|Hfit]]; [cbn in En; lia|now left|now right].
    + apply Nat.ltb_ge in En. destruct cur; [|cbn in En; lia].
      apply IH; [assumption|right; left; reflexivity].
  - injection E as <- <-. apply Qltb_ge in Ew.
    apply IH; [assumption|]. right. right. exact Ew.
Qed.

End WrapFacts.

(** X5.  Greedy wrapping: no line of a wrapping is empty, each line's
    recorded width is the measured width of its words joined by single
    spaces, and every line either holds a single word or is no wider than
    the canvas width minus twice the padding. *)
Theorem wrapped_lines_fit (measureText : Q -> str -> Q)
    (ws : list WordToLayout) (w font : Q) :
  Forall (fun line =>
            line_words line <> []
            /\ line_width line = measureText font (lineText (line_words line))
            /\ (List.length (line_words line) = 1%nat
                \/ line_width line <= maxWidth w))
         (wrapLines measureText ws w font).
Proof.
  unfold wrapLines.
  destruct (wrap_fold_good measureText w font ws [] [] (Forall_nil _)
              (or_introl eq_refl)) as [Hl Hc].
  destruct (fold_left _ ws ([], [])) as [lines cur]. cbn [fst snd] in Hl, Hc.
  destruct (0 <? List.length cur)%nat eqn:En; [|exact Hl].
  apply Nat.ltb_lt in En. apply Forall_app. split; [exact Hl|].
  constructor; [|constructor]. cbn [line_words line_width].
  split; [intros ->; cbn in En; lia|]. split; [reflexivity|].
  destruct Hc as [->|[H1|Hfit]]; [cbn in En; lia|now left|now right].
Qed.

(** X6.  The layout places every word it is given exactly once and in the
    given order, with its parsed token and timing untouched, and starts
    each of them invisible, unscaled and unshifted; the lines of the final
    wrapping hold these same words. *)
Theorem layout_preserves_words (measureText : Q -> str -> Q)
    (ws : list WordToLayout) (w h : Q) (cfg : FontConfig) :
  let layout := calculateLayoutForWords measureText ws w h cfg in
  List.map timed layout = ws
  /\ List.length layout = List.length ws
  /\ Forall (fun wd => alpha wd = 0 /\ scale wd = 1 /\ yOffset wd = 0) layout
  /\ List.concat (List.map line_words (fit_lines (fitResult measureText ws w h cfg)))
     = ws.
Proof.
  cbv zeta. pose proof (layout_keeps_words measureText ws w h cfg) as Hk.
  split; [exact Hk|]. split; [now rewrite <- Hk at 2; rewrite length_map|].
  split.
  - unfold calculateLayoutForWords, mapi. generalize 0%nat.
    induction (fit_lines _) as [|line lines IH]; intros k; cbn [mapi_from List.concat];
      [constructor|].
    apply Forall_app. split; [|apply IH].
    generalize ((w - line_width line) / 2).
    induction (line_words line) as [|a t IHw]; intros cx; cbn [placeWords];
      constructor; [now cbn|apply IHw].
  - unfold fitResult.
    destruct (fit_loop_last measureText ws w h cfg (size cfg) 0) as (f & -> & _).
    cbn [fit_lines]. apply wrapLines_words.
Qed.

Section WindowFacts.







End WindowFacts.



Section AnimationFacts.

Lemma Qmin_1_bounds q : 0 <= q -> 0 <= Qmin 1 q /\ Qmin 1 q <= 1.
Proof.
  intros Hq. unfold Qmin. destruct (Qltb q 1) eqn:E.
  - apply Qltb_lt in E. split; [assumption|now apply Qlt_le_weak].
  - split; discriminate.
Qed.

Lemma cube_unit u : 0 <= u -> u <= 1 -> 0 <= u ^ 3 /\ u ^ 3 <= 1.
Proof.
  intros H0 H1. change (u ^ 3) with (u * (u * u)).
  assert (Hsq0 : 0 <= u * u) by now apply Qmult_le_0_compat.
  assert (Hsq1 : u * u <= 1).
  { apply Qle_trans with (1 * u); [now apply Qmult_le_compat_r|lra]. }
  split; [now apply Qmult_le_0_compat|].
  apply Qle_trans with (1 * (u * u)); [now apply Qmult_le_compat_r|lra].
Qed.

Lemma easeOutCubic_unit t :
  0 <= t -> t <= 1 -> 0 <= easeOutCubic t /\ easeOutCubic t <= 1.
Proof.
  intros H0 H1. unfold easeOutCubic.
  destruct (cube_unit (1 - t)) as [Ha Hb]; [lra|lra|]. split; lra.
Qed.

Lemma wordFrame_progress t fade wd fr :
  0 < fade -> wordFrame t fade wd = Some fr ->
  0 <= fr_progress fr /\ fr_progress fr <= 1.
Proof.
  intros Hf. unfold wordFrame.
  destruct (Qltb (t - wordStartTime (timed wd)) 0) eqn:E; [discriminate|].
  apply Qltb_ge in E.
  assert (Hp : 0 <= (t - wordStartTime (timed wd)) / fade)
    by now apply Qdiv_nonneg.
  pose proof (Qmin_1_bounds _ Hp) as Hb.
  destruct (duration (timed wd)) as [d|];
    [destruct (truthy (Some d))|]; intros [= <-]; exact Hb.
Qed.

End AnimationFacts.

(** X8.  Entrance animation: for a positive fade duration every drawn
    word has a fade progress in [0, 1]; the eased value is in [0, 1], is 0
    at progress 0 and 1 at progress 1; FadeZoom draws with alpha in [0, 1]
    and scale in [1, 1.5], DropIn with alpha in [0, 1] and a vertical
    offset in [-50, 0], and Typewriter draws fully opaque at once. *)
Theorem entrance_animation_bounds (elapsedTime fadeDuration : Q) (wd : Word)
    (fr : WordFrame) :
  0 < fadeDuration ->
  wordFrame elapsedTime fadeDuration wd = Some fr ->
  (0 <= fr_progress fr /\ fr_progress fr <= 1)
  /\ (easeOutCubic 0 == 0 /\ easeOutCubic 1 == 1)
  /\ (let z := baseAnimation FadeZoom wd (fr_progress fr) in
      0 <= alpha z /\ alpha z <= 1 /\ 1 <= scale z /\ scale z <= 3 # 2)
  /\ (let d := baseAnimation DropIn wd (fr_progress fr) in
      0 <= alpha d /\ alpha d <= 1 /\ -50 <= yOffset d /\ yOffset d <= 0)
  /\ alpha (baseAnimation Typewriter wd (fr_progress fr)) = 1.
Proof.
  intros Hf Hfr.
  destruct (wordFrame_progress _ _ _ _ Hf Hfr) as [Hp0 Hp1].
  destruct (easeOutCubic_unit _ Hp0 Hp1) as [He0 He1].
  split; [now split|]. split; [split; reflexivity|].
  cbv zeta. cbn [baseAnimation alpha scale yOffset].
  split; [repeat split; lra|]. split; [repeat split; lra|].
  apply Qleb_le in Hp0. now rewrite Hp0.
Qed.

Lemma entrance_animation_bounds_witness :
  0 <= alpha (baseAnimation FadeZoom
                (mkPositioned (mkWord (parseStyledWord (lit "hi")) (Some 1000) (Some 500))
                              0 0 0 1 0)
                (Qmin 1 ((1040 - 1000) / FADE_DURATION))).
Proof.
  pose proof (entrance_animation_bounds 1040 FADE_DURATION
    (mkPositioned (mkWord (parseStyledWord (lit "hi")) (Some 1000) (Some 500))
                  0 0 0 1 0)
    (mkFrame (Qmin 1 ((1040 - 1000) / FADE_DURATION)) true ((1040 - 1000) / 500))
    eq_refl eq_refl) as (_ & _ & Hz & _).
  exact (proj1 Hz).
Defined.

(** X9.  The bounce of the active word: whenever [renderPage] marks a
    word active, its active progress lies in [0, 1), and the bounce factor
    lies between 1 and 1.15; it is exactly 1.15 at a progress of 0.2, and
    exactly 1 for a word that is not active. *)
Theorem active_bounce_bounds (elapsedTime fadeDuration : Q) (wd : Word)
    (fr : WordFrame) :
  wordFrame elapsedTime fadeDuration wd = Some fr ->
  fr_isActive fr = true ->
  (0 <= fr_activeProgress fr /\ fr_activeProgress fr < 1)
  /\ 1 <= activeScale true (fr_activeProgress fr)
  /\ activeScale true (fr_activeProgress fr) <= 115 # 100
  /\ activeScale true (2 # 10) == 115 # 100
  /\ (forall q, activeScale false q = 1).
Proof.
  unfold wordFrame. intros Hfr Hact.
  destruct (Qltb (elapsedTime - wordStartTime (timed wd)) 0); [discriminate|].
  destruct (duration (timed wd)) as [d|]; [|injection Hfr as <-; discriminate].
  destruct (truthy (Some d)); [|injection Hfr as <-; discriminate].
  injection Hfr as <-. cbn [fr_isActive fr_activeProgress] in *.
  apply andb_prop in Hact as [H0 H1]. apply Qleb_le in H0. apply Qltb_lt in H1.
  set (e := elapsedTime - wordStartTime (timed wd)) in *.
  assert (Hd : 0 < d) by lra.
  assert (Hq0 : 0 <= e / d) by now apply Qdiv_nonneg.
  assert (Hq1 : e / d < 1) by (apply Qlt_shift_div_r; [assumption|lra]).
  split; [now split|].
  unfold activeScale.
  split; [apply Qmax_ge_l|]. split; [|split; [reflexivity|reflexivity]].
  unfold Qmax.
  destruct (Qltb (e / d) (2 # 10)) eqn:E.
  - apply Qltb_lt in E. destruct (Qltb 1 _); lra.
  - apply Qltb_ge in E. destruct (Qltb 1 _); lra.
Qed.

Lemma active_bounce_bounds_witness :
  activeScale true ((1040 - 1000) / 500) <= 115 # 100.
Proof.
  pose proof (active_bounce_bounds 1040 FADE_DURATION
    (mkPositioned (mkWord (parseStyledWord (lit "hi")) (Some 1000) (Some 500))
                  0 0 0 1 0)
    (mkFrame (Qmin 1 ((1040 - 1000) / FADE_DURATION)) true ((1040 - 1000) / 500))
    eq_refl eq_refl) as (_ & _ & H & _).
  exact H.
Defined.

(** X10.  A frame draws exactly the words that have started: the words
    [renderPage] paints are, in layout order, those whose start time is
    not after the elapsed time, each with its token and timing unchanged. *)
Theorem render_draws_started_words (theme : Theme) (a : Animation)
    (layout : list Word) (elapsedTime fadeDuration : Q) :
  List.map (fun pt => timed (pt_word pt))
           (renderPage theme a layout elapsedTime fadeDuration)
  = filter (fun wd => Qleb (wordStartTime wd) elapsedTime)
           (List.map timed layout).
Proof.
  unfold renderPage.
  induction layout as [|wd rest IH]; [reflexivity|].
  cbn [flat_map List.map filter]. rewrite map_app, IH.
  unfold wordFrame.
  destruct (Qltb (elapsedTime - wordStartTime (timed wd)) 0) eqn:E.
  - apply Qltb_lt in E.
    assert (Hn : Qleb (wordStartTime (timed wd)) elapsedTime = false).
    { destruct (Qleb _ _) eqn:El; [|reflexivity]. apply Qleb_le in El. lra. }
    now rewrite Hn.
  - apply Qltb_ge in E.
    assert (Hy : Qleb (wordStartTime (timed wd)) elapsedTime = true)
      by (apply Qleb_le; lra).
    rewrite Hy.
    destruct (duration (timed wd)) as [d|]; [destruct (truthy (Some d))|];
      cbn [List.map app animateWord pt_word]; now destruct a.
Qed.

Section PageLookupFacts.

Lemma rev_head_in {A} (l : list A) x t : rev l = x :: t -> In x l.
Proof. intros H. apply in_rev. rewrite H. now left. Qed.

End PageLookupFacts.

(** X11.  The page shown in a timestamped frame: with at least one page
    the look-up always yields a page of the timeline.  If some page's
    [start, end) holds the time, the page shown is the first such page.
    Otherwise, before the first page's start it is the first page, and from
    there on it is a page that has already ended: the last page once the
    time has passed its end, else the last page in order whose end is not
    after the time; the final fallback to the first page is never taken. *)
Theorem active_page_lookup (pageLayouts : list SegmentPage) (visualTime : Q) :
  pageLayouts <> [] ->
  exists pg,
    activePage pageLayouts visualTime = Some pg
    /\ In pg pageLayouts
    /\ ((exists q, In q pageLayouts
                   /\ page_start q <= visualTime /\ visualTime < page_end q) ->
        page_start pg <= visualTime /\ visualTime < page_end pg
        /\ find (fun q => Qleb (page_start q) visualTime
                          && Qltb visualTime (page_end q)) pageLayouts = Some pg)
    /\ ((forall q, In q pageLayouts ->
                   ~ (page_start q <= visualTime /\ visualTime < page_end q)) ->
        (visualTime < page_start (hd pg pageLayouts) -> pg = hd pg pageLayouts)
        /\ (page_start (hd pg pageLayouts) <= visualTime ->
            page_end pg <= visualTime)).
Proof.
  intros Hne. unfold activePage.
  set (inside := fun q => Qleb (page_start q) visualTime
                          && Qltb visualTime (page_end q)).
  assert (Hin : forall q, inside q = true <->
                  page_start q <= visualTime /\ visualTime < page_end q).
  { intros q. unfold inside. now rewrite andb_true_iff, Qleb_le, Qltb_lt. }
  destruct (find inside pageLayouts) as [pg|] eqn:Ef.
  - apply find_some in Ef as Hs. destruct Hs as [Hmem Hins].
    exists pg. split; [reflexivity|]. split; [assumption|]. split.
    + intros _. apply Hin in Hins. destruct Hins. repeat split; assumption.
    + intros Hnone. exfalso. apply (Hnone pg Hmem). now apply Hin.
  - assert (Hnone : forall q, In q pageLayouts -> inside q = false)
      by (intros q Hq; exact (find_none _ _ Ef q Hq)).
    assert (Hcontra : (exists q, In q pageLayouts /\ page_start q <= visualTime
                                 /\ visualTime < page_end q) -> False).
    { intros (q & Hq & Hr). apply Hin in Hr. rewrite (Hnone q Hq) in Hr.
      discriminate. }
    clear Ef. destruct pageLayouts as [|first rest]; [congruence|].
    assert (Hfirst : In first (first :: rest)) by now left.
    destruct (rev (first :: rest)) as [|lastPage revrest] eqn:Er.
    { exfalso. apply (f_equal (@List.length _)) in Er.
      rewrite length_rev in Er. discriminate. }
    assert (Hlast : In lastPage (first :: rest)) by (eapply rev_head_in; eauto).
    cbv iota. cbn [hd].
    destruct (Qltb visualTime (page_start first)) eqn:Eb.
    + exists first. apply Qltb_lt in Eb.
      split; [reflexivity|]. split; [assumption|].
      split; [intros H; now destruct Hcontra|].
      intros _. split; [reflexivity|intros H; lra].
    + apply Qltb_ge in Eb.
      assert (Hfe : page_end first <= visualTime).
      { pose proof (Hnone first Hfirst) as Hf. unfold inside in Hf.
        apply andb_false_iff in Hf as [Hf|Hf].
        - apply Qleb_le in Eb. congruence.
        - now apply Qltb_ge in Hf. }
      destruct (Qleb (page_end lastPage) visualTime) eqn:El.
      * exists lastPage. apply Qleb_le in El.
        split; [reflexivity|]. split; [assumption|].
        split; [intros H; now destruct Hcontra|].
        intros _. split; [intros H; lra|intros _; exact El].
      * destruct (find (fun q => Qleb (page_end q) visualTime)
                       (lastPage :: revrest)) as [prev|] eqn:Ep.
        -- apply find_some in Ep as [Hpm Hpe]. apply Qleb_le in Hpe.
           rewrite <- Er in Hpm. apply in_rev in Hpm.
           exists prev. split; [reflexivity|]. split; [assumption|].
           split; [intros H; now destruct Hcontra|].
           intros _. split; [intros H; lra|intros _; exact Hpe].
        -- exfalso. pose proof (find_none _ _ Ep first) as Hf.
           rewrite <- Er, <- in_rev in Hf. specialize (Hf Hfirst).
           apply Qleb_le in Hfe. cbv beta in Hf. congruence.
Qed.

Lemma active_page_lookup_witness :
  exists pg,
    activePage [mkPage [] 0 1000 0; mkPage [] 1500 2000 1] 1200 = Some pg
    /\ In pg [mkPage [] 0 1000 0; mkPage [] 1500 2000 1].
Proof.
  destruct (active_page_lookup [mkPage [] 0 1000 0; mkPage [] 1500 2000 1] 1200)
    as (pg & H1 & H2 & _).
  - discriminate.
  - exists pg. exact (conj H1 H2).
Defined.

Section PagedLookupFacts.




End PagedLookupFacts.





Section DurationFacts.

Lemma Qmax_ge_r a b : b <= Qmax a b.
Proof.
  unfold Qmax. destruct (Qltb a b) eqn:E; [apply Qle_refl|].
  now apply Qltb_ge in E.
Qed.

Lemma mapi_from_snoc {A B} (f : A -> nat -> B) l x k :
  mapi_from k f (l ++ [x]) = mapi_from k f l ++ [f x (k + List.length l)%nat].
Proof.
  revert k. induction l as [|a t IH]; intros k; cbn [app mapi_from List.length].
  - now rewrite Nat.add_0_r.
  - rewrite IH. now rewrite Nat.add_succ_r.
Qed.

Lemma Qtrunc_floor q : 0 <= q -> Qtrunc q = Qfloor q.
Proof.
  destruct q as [n d]. unfold Qle, Qtrunc, Qfloor. cbn [Qnum Qden].
  intros H. apply Z.quot_div_nonneg; lia.
Qed.

End DurationFacts.

(** X14.  Length of a timestamped session: the total duration is the
    larger of the last segment's scaled end plus one second and the audio
    duration in milliseconds (zero when the audio duration is unknown or
    zero), so the recording runs at least one second past the last
    segment and never ends before a known, non-negative audio does. *)
Theorem timestamped_total_duration (measureText : Q -> str -> Q) (p : Props)
    (audioDuration : option Q) (front : list TranscriptSegment)
    (lastSeg : TranscriptSegment) :
  let segs := front ++ [lastSeg] in
  let total := totalDurationOf (segmentsTimeline measureText p audioDuration segs) in
  let lastEnd := seg_end lastSeg * timeScale audioDuration segs * 1000 in
  total = Qmax (lastEnd + 1000)
               (match audioDuration with
                | Some a => if truthy audioDuration then a * 1000 else 0
                | None => 0
                end)
  /\ lastEnd + 1000 <= total
  /\ (forall a, audioDuration = Some a -> 0 <= a -> a * 1000 <= total).
Proof.
  cbv zeta. unfold segmentsTimeline, mapi. cbn [totalDurationOf].
  rewrite map_app. cbn [List.map]. rewrite mapi_from_snoc, rev_app_distr.
  cbn [rev app page_end]. split; [reflexivity|]. split; [apply Qmax_ge_l|].
  intros a -> Ha. eapply Qle_trans; [|apply Qmax_ge_r].
  unfold truthy. destruct (Qeq_bool a 0) eqn:E; cbn [negb]; [|apply Qle_refl].
  apply Qeq_bool_iff in E. rewrite E. discriminate.
Qed.

(** X15.  Stopping the recorder: a frame asks the recorder to stop only
    when the recorder is recording, no stop is under way, and the elapsed
    time has reached the total duration; such a frame schedules no
    further frame.  A frame of a preview session never stops anything and
    only schedules the next frame. *)
Theorem recorder_stop_guard (p : Props) (t : Timeline) (startTime : Q)
    (c : Clock) (recording isStopping : bool) :
  let calls := renderFrame p t startTime c recording isStopping in
  (In StopRecorder calls ->
   recording = true /\ isStopping = false
   /\ totalDurationOf t <= frameElapsed p t startTime c
   /\ ~ In RequestFrame calls)
  /\ (forall fullLayout total,
        t = PreviewTimeline fullLayout total -> isPreviewMode p = true ->
        calls = [RequestFrame]).
Proof.
  cbv zeta.
  assert (Htail : forall continue,
    In StopRecorder (frameTail p continue recording isStopping) ->
    continue = false /\ recording = true /\ isStopping = false
    /\ ~ In RequestFrame (frameTail p continue recording isStopping)).
  { intros continue. unfold frameTail.
    destruct continue; [intros [H|[]]; discriminate|].
    destruct recording, isStopping; cbn [andb negb]; try (intros []).
    intros _. repeat split.
    destruct (hasOnProgress p); cbn; intros H;
      repeat (destruct H as [H|H]; [discriminate|]); exact H. }
  assert (Hno : forall l : list Call,
    (forall x, In x l -> exists z, x = OnProgress z) ->
    ~ In StopRecorder l /\ ~ In RequestFrame l).
  { intros l Hl. split; intros H; apply Hl in H as (z & H); discriminate. }
  split.
  - unfold renderFrame.
    destruct t as [pl total|pl total pd|fl total]; cbn [totalDurationOf];
      intros Hin; apply in_app_or in Hin as [Hin|Hin].
    + exfalso. destruct (hasOnProgress p); [|destruct Hin].
      destruct Hin as [H|[]]; discriminate.
    + apply Htail in Hin as (Hc & Hr & Hs & Hn).
      apply Qltb_ge in Hc. repeat split; try assumption.
      intros H. apply in_app_or in H as [H|H]; [|now apply Hn].
      destruct (hasOnProgress p); [|destruct H]. destruct H as [H|[]]; discriminate.
    + exfalso. destruct (hasOnProgress p); [|destruct Hin].
      destruct Hin as [H|[]]; discriminate.
    + apply Htail in Hin as (Hc & Hr & Hs & Hn).
      apply Qltb_ge in Hc. repeat split; try assumption.
      intros H. apply in_app_or in H as [H|H]; [|now apply Hn].
      destruct (hasOnProgress p); [|destruct H]. destruct H as [H|[]]; discriminate.
    + exfalso. destruct (isPreviewMode p); [destruct Hin|].
      destruct (hasOnProgress p); [|destruct Hin].
      destruct Hin as [H|[]]; discriminate.
    + apply Htail in Hin as (Hc & Hr & Hs & Hn).
      apply orb_false_iff in Hc as [Hpv Hc].
      apply Qltb_ge in Hc. repeat split; try assumption.
      intros H. apply in_app_or in H as [H|H]; [|now apply Hn].
      rewrite Hpv in H.
      destruct (hasOnProgress p); [|destruct H]. destruct H as [H|[]]; discriminate.
  - intros fl total -> Hpv. unfold renderFrame. now rewrite Hpv.
Qed.

Lemma recorder_stop_guard_witness :
  true = true /\ false = false
  /\ totalDurationOf (PreviewTimeline [] 5000)
     <= frameElapsed (exportProps (lit "so it goes") None None false)
          (PreviewTimeline [] 5000) 0 (mkClock None 0 6000 6000)
  /\ ~ In RequestFrame
         (renderFrame (exportProps (lit "so it goes") None None false)
            (PreviewTimeline [] 5000) 0 (mkClock None 0 6000 6000) true false).
Proof.
  apply (proj1 (recorder_stop_guard
                  (exportProps (lit "so it goes") None None false)
                  (PreviewTimeline [] 5000) 0 (mkClock None 0 6000 6000)
                  true false)).
  cbn. right. right. now left.
Defined.

(** X16.  The preview loop: once the frame time has reached the loop's
    start, the looping elapsed time of a preview session with a positive
    total duration stays in [0, total), and it differs from the time since
    the start by a whole number of total durations. *)
Theorem preview_loop_wraps (totalDuration startTime : Q) (c : Clock) :
  0 < totalDuration -> startTime <= frameTime c ->
  let elapsed := elapsedPreview true totalDuration startTime c in
  0 <= elapsed /\ elapsed < totalDuration
  /\ exists k : Z, (0 <= k)%Z
                   /\ frameTime c - startTime
                      == elapsed + inject_Z k * totalDuration.
Proof.
  intros Ht Hs. cbv zeta. unfold elapsedPreview, Qrem.
  set (e := frameTime c - startTime).
  assert (He : 0 <= e) by (unfold e; lra).
  assert (Hq : 0 <= e / totalDuration) by now apply Qdiv_nonneg.
  rewrite (Qtrunc_floor _ Hq).
  pose proof (Qfloor_le (e / totalDuration)) as Hlo.
  pose proof (Qlt_floor (e / totalDuration)) as Hhi.
  set (k := Qfloor (e / totalDuration)) in *.
  rewrite inject_Z_plus in Hhi. change (inject_Z 1) with 1 in Hhi.
  assert (Hne : ~ totalDuration == 0) by (intros Hz; rewrite Hz in Ht; discriminate Ht).
  assert (Hmul : e / totalDuration * totalDuration == e) by (field; exact Hne).
  assert (H1 : inject_Z k * totalDuration <= e / totalDuration * totalDuration)
    by (apply Qmult_le_compat_r; [assumption|now apply Qlt_le_weak]).
  assert (H2 : e / totalDuration * totalDuration
               < (inject_Z k + 1) * totalDuration)
    by (apply Qmult_lt_compat_r; assumption).
  split; [lra|]. split; [lra|].
  exists k. split; [|ring].
  unfold k. change 0%Z with (Qfloor 0). now apply Qfloor_resp_le.
Qed.

Lemma preview_loop_wraps_witness :
  0 <= elapsedPreview true 2330 1000 (mkClock None 0 6000 6000)
  /\ elapsedPreview true 2330 1000 (mkClock None 0 6000 6000) < 2330.
Proof.
  destruct (preview_loop_wraps 2330 1000 (mkClock None 0 6000 6000))
    as (H1 & H2 & _); [reflexivity|discriminate|].
  exact (conj H1 H2).
Defined.

Section EncodingFacts.

Variable isTypeSupported : str -> bool.

Lemma firstSupported_spec types :
  match firstSupported isTypeSupported types with
  | Some type =>
      exists before after,
        types = before ++ type :: after
        /\ isTypeSupported type = true
        /\ Forall (fun x => isTypeSupported x = false) before
  | None => Forall (fun x => isTypeSupported x = false) types
  end.
Proof.
  induction types as [|x rest IH]; cbn [firstSupported]; [constructor|].
  destruct (isTypeSupported x) eqn:E.
  - exists [], rest. repeat split; [assumption|constructor].
  - destruct (firstSupported isTypeSupported rest) as [type|].
    + destruct IH as (before & after & -> & Hs & Hb).
      exists (x :: before), after. repeat split; [assumption|now constructor].
    + now constructor.
Qed.

End EncodingFacts.

(** X17.  Choice of the recording encoding: the result is the first of
    the four candidate types, in their order of preference, that the
    recorder supports (every candidate before it is unsupported), and
    there is no result exactly when none of the four is supported. *)
Theorem first_supported_encoding (isTypeSupported : str -> bool) :
  (forall type, getSupportedMimeType isTypeSupported = Some type ->
     exists before after,
       mimeTypes = before ++ type :: after
       /\ isTypeSupported type = true
       /\ Forall (fun x => isTypeSupported x = false) before)
  /\ (getSupportedMimeType isTypeSupported = None
      <-> Forall (fun x => isTypeSupported x = false) mimeTypes).
Proof.
  unfold getSupportedMimeType.
  pose proof (firstSupported_spec isTypeSupported mimeTypes) as H.
  destruct (firstSupported isTypeSupported mimeTypes) as [type|].
  - split; [intros ? [= <-]; exact H|].
    split; [discriminate|]. intros Hall.
    destruct H as (before & after & Heq & Hs & _).
    rewrite Forall_forall in Hall.
    rewrite Hall in Hs; [discriminate|]. rewrite Heq. apply in_elt.
  - split; [discriminate|]. split; [intros _; exact H|reflexivity].
Qed.



(* ===================================================================== *)
(** ** Further properties of the script service and the form *)
(* ===================================================================== *)

Section SentenceEndFacts.

Lemma lastChar_app s e : e <> [] -> lastChar (s ++ e) = lastChar e.
Proof.
  intros He. unfold lastChar. rewrite rev_app_distr.
  destruct (rev e) as [|x t] eqn:E; [|reflexivity].
  exfalso. apply He. rewrite <- (rev_involutive e), E. reflexivity.
Qed.

Lemma str_eqb_eq a b : str_eqb a b = true -> a = b.
Proof. unfold str_eqb. now destruct (list_eq_dec N.eq_dec a b). Qed.

Lemma nounEndings_stop e : In e nounEndings -> e <> [] /\ lastChar e = [46%N].
Proof.
  intros H. repeat (destruct H as [<-|H]; [split; [discriminate|reflexivity]|]).
  destruct H.
Qed.

End SentenceEndFacts.

(** X19.  The Korean repair always ends the sentence: for every text and
    every random value in [0, 1), the last character of the repaired
    sentence is a full stop, an exclamation or question mark, a star, or
    one of the four accepted Hangul endings; a sentence whose last
    character (before a closing star) is a dangling modifier ends with a
    full stop. *)
Theorem repaired_sentence_ends (r : Q) (text : str) :
  0 <= r -> r < 1 ->
  includes sentenceEnds (lastChar (repairKoreanSentence r text)) = true.
Proof.
  intros H0 H1. unfold repairKoreanSentence.
  set (repaired := if _ && _ && _ then _ else _). clearbody repaired.
  destruct (includes danglingModifiers _) eqn:Ed.
  - destruct (at_index_in_range nounEndings
                (randomIndex r (List.length nounEndings))) as (e & He).
    { apply randomIndex_range; [assumption|assumption|cbn; lia]. }
    rewrite He. apply at_index_some in He as [_ Hin].
    destruct (nounEndings_stop e Hin) as [Hne Hlast].
    cbn [app]. rewrite lastChar_app by assumption. now rewrite Hlast.
  - destruct (str_eqb (lastChar repaired) [star]) eqn:Es.
    + apply str_eqb_eq in Es.
      destruct (negb (includes sentenceEnds _)); cbn [negb]; now rewrite Es.
    + destruct (includes sentenceEnds (lastChar repaired)) eqn:Ee; cbn [negb].
      * exact Ee.
      * now rewrite lastChar_app.
Qed.

Lemma repaired_sentence_ends_witness :
  includes sentenceEnds
    (lastChar (repairKoreanSentence (3 # 4) [54620; 32; 42; 54620]%N)) = true.
Proof.
  apply repaired_sentence_ends; [discriminate|reflexivity].
Defined.



Section FallbackTextFacts.

Lemma join_cons_head sep x wd wds :
  join sep ((x :: wd) :: wds) = x :: join sep (wd :: wds).
Proof. destruct wds; reflexivity. Qed.

Lemma join_two sep (w w' : str) r :
  join sep (w :: w' :: r) = w ++ sep ++ join sep (w' :: r).
Proof. reflexivity. Qed.

Lemma join_split c s : join [c] (split_on (N.eqb c) s) = s.
Proof.
  induction s as [|x t IH]; [reflexivity|]. cbn [split_on].
  destruct (c =? x)%N eqn:E.
  - apply N.eqb_eq in E. subst x.
    pose proof (split_on_nonnil (N.eqb c) t) as Hne.
    destruct (split_on (N.eqb c) t) as [|wd wds]; [congruence|].
    rewrite join_two. cbn [app]. f_equal. exact IH.
  - pose proof (split_on_nonnil (N.eqb c) t) as Hne.
    destruct (split_on (N.eqb c) t) as [|wd wds]; [congruence|].
    rewrite join_cons_head. f_equal. exact IH.
Qed.

Lemma filter_join (q : char -> bool) sep l :
  filter q (join sep l) = join (filter q sep) (List.map (filter q) l).
Proof.
  induction l as [|wd [|wd' t] IH]; [reflexivity|reflexivity|].
  rewrite join_two, !filter_app, IH. cbn [List.map]. now rewrite join_two.
Qed.

Lemma filter_notStar_cons_star s :
  filter notStar (star :: s) = filter notStar s.
Proof. reflexivity. Qed.

Lemma filter_notStar_plain s : count star s = 0%nat -> filter notStar s = s.
Proof.
  induction s as [|x t IH]; [reflexivity|]. rewrite count_cons.
  unfold notStar in *. cbn [filter].
  destruct (star =? x)%N; cbn [negb]; [discriminate|].
  intros H. now rewrite IH.
Qed.

Lemma map_replaceAt_same {A B} (f : A -> B) i v a (l : list A) :
  nth_error l i = Some a -> f v = f a ->
  List.map f (replaceAt i v l) = List.map f l.
Proof.
  revert i. induction l as [|x t IH]; intros i Hn Hf;
    [destruct i; discriminate|].
  destruct i as [|j]; cbn [replaceAt List.map].
  - cbn in Hn. injection Hn as ->. now rewrite Hf.
  - cbn in Hn. now rewrite (IH j Hn Hf).
Qed.

Lemma map_id_on {A} (f : A -> A) l :
  Forall (fun x => f x = x) l -> List.map f l = l.
Proof. induction 1 as [|x t Hx _ IH]; cbn; [reflexivity|]. now rewrite Hx, IH. Qed.

Lemma highlightFallback_text r text s :
  existsb (N.eqb star) text = false ->
  highlightFallback r (split_on (N.eqb c_space) text) = Some s ->
  filter notStar s = text.
Proof.
  intros Hnone. unfold highlightFallback.
  set (ws := split_on (N.eqb c_space) text).
  assert (Hall : Forall (fun wd => count star wd = 0%nat) ws).
  { apply sum_zero_all. subst ws.
    rewrite count_split_on by reflexivity. now apply count_none. }
  destruct (if (0 <? _)%nat then _ else _) as [ti|]; [|discriminate].
  destruct (at_index ws ti) as [targetWord|] eqn:Et; [|discriminate].
  intros [= <-].
  assert (Hnth : nth_error ws (Z.to_nat ti) = Some targetWord).
  { unfold at_index in Et. now destruct (ti <? 0)%Z. }
  assert (Hw : count star targetWord = 0%nat).
  { rewrite Forall_forall in Hall. apply Hall. eapply nth_error_In; eauto. }
  rewrite filter_join. change (filter notStar [c_space]) with [c_space].
  rewrite (map_replaceAt_same (filter notStar) _ _ targetWord _ Hnth).
  - rewrite map_id_on; [apply join_split|].
    eapply Forall_impl; [|exact Hall]. intros wd. apply filter_notStar_plain.
  - destruct (wordMatch targetWord) as [[[prefix core] suffix]|] eqn:Em.
    + apply wordMatch_parts in Em. rewrite <- Em.
      cbn [app]. now rewrite !filter_app, !filter_notStar_cons_star, !filter_app.
    + cbn [app]. rewrite filter_notStar_cons_star, filter_app.
      cbn [filter]. change (notStar star) with false. apply app_nil_r.
Qed.

End FallbackTextFacts.

(** X21.  The highlight fallback only adds its two stars: when an English
    answer holds no star and more than two space-separated words, the
    returned script holds exactly two stars and removing them gives the
    answer back, character for character; with one or two words the answer
    is returned trimmed and without any star. *)
Theorem fallback_keeps_text (text : str) (r1 r2 : Q) (s : str) :
  existsb (N.eqb star) text = false ->
  generateAutopsyScript English (Some text) r1 r2 = Returned s ->
  ((2 < List.length (split_on (N.eqb c_space) text))%nat ->
   filter notStar s = text /\ count star s = 2%nat)
  /\ ((List.length (split_on (N.eqb c_space) text) <= 2)%nat ->
      s = trim text).
Proof.
  intros Hnone. unfold generateAutopsyScript.
  destruct text as [|c0 text0]; [discriminate|].
  rewrite (count_none _ Hnone). cbn [Nat.odd Nat.even negb]. rewrite Hnone.
  cbn [negb].
  destruct (2 <? _)%nat eqn:E.
  - apply Nat.ltb_lt in E.
    destruct (highlightFallback r2 _) as [s'|] eqn:Hf; [|discriminate].
    intros [= <-]. split; [|lia]. intros _. split.
    + exact (highlightFallback_text _ _ _ Hnone Hf).
    + exact (highlightFallback_two _ _ _ Hnone Hf).
  - apply Nat.ltb_ge in E. intros [= <-]. split; [lia|reflexivity].
Qed.

Lemma fallback_keeps_text_witness :
  filter notStar (lit "He is *busy*.") = lit "He is busy."
  /\ count star (lit "He is *busy*.") = 2%nat.
Proof.
  apply (proj1 (fallback_keeps_text (lit "He is busy.") 0 (1 # 2)
                  (lit "He is *busy*.") eq_refl eq_refl)).
  cbn. lia.
Defined.

Section TrimFacts.

Lemma dropWhile_head p s x : hd_error (dropWhile p s) = Some x -> p x = false.
Proof.
  induction s as [|c t IH]; cbn [dropWhile]; [discriminate|].
  destruct (p c) eqn:E; [exact IH|]. now intros [= <-].
Qed.

Lemma dropWhile_suffix p s : exists pre, s = pre ++ dropWhile p s.
Proof.
  induction s as [|c t [pre IH]]; [now exists []|]. cbn [dropWhile].
  destruct (p c); [|now exists []].
  exists (c :: pre). cbn. now rewrite <- IH.
Qed.

Lemma dropWhile_keep p s :
  (forall x, hd_error s = Some x -> p x = false) -> dropWhile p s = s.
Proof.
  destruct s as [|c t]; [reflexivity|]. intros H. cbn [dropWhile].
  now rewrite (H c eq_refl).
Qed.

Lemma trim_ends s :
  (forall x, hd_error (trim s) = Some x -> is_space x = false)
  /\ (forall x, hd_error (rev (trim s)) = Some x -> is_space x = false).
Proof.
  unfold trim, trimEnd. split.
  - intros x Hx.
    destruct (dropWhile_suffix is_space (rev (trimStart s))) as [pre Hpre].
    assert (Hts : trimStart s = rev (dropWhile is_space (rev (trimStart s)))
                                 ++ rev pre).
    { rewrite <- rev_app_distr, <- Hpre. now rewrite rev_involutive. }
    apply (dropWhile_head is_space s). fold (trimStart s). rewrite Hts.
    destruct (rev (dropWhile is_space (rev (trimStart s)))); [discriminate|].
    exact Hx.
  - intros x. rewrite rev_involutive. apply dropWhile_head.
Qed.

Lemma trim_fixed s :
  (forall x, hd_error s = Some x -> is_space x = false) ->
  (forall x, hd_error (rev s) = Some x -> is_space x = false) ->
  trim s = s.
Proof.
  intros Hh Hl. unfold trim, trimEnd, trimStart.
  rewrite (dropWhile_keep _ s Hh), (dropWhile_keep _ (rev s) Hl).
  apply rev_involutive.
Qed.

End TrimFacts.

(** X22.  What the form submits: [onStart] is called only while nothing
    is being transcribed or recorded, with a concern that is the entered
    text trimmed, is not empty, neither starts nor ends with white space
    and is unchanged by a further trim; in literal mode only when an
    audio blob is present.  A concern of white space alone is never
    submitted. *)
Theorem submit_guard (mode : AutopsyMode) (concern : str)
    (hasAudioBlob isTranscribing isRecording : bool) :
  (forall c m b,
      handleSubmit mode concern hasAudioBlob isTranscribing isRecording
      = Some (c, m, b) ->
      c = trim concern /\ c <> [] /\ trim c = c
      /\ (forall x, hd_error c = Some x -> is_space x = false)
      /\ (forall x, hd_error (rev c) = Some x -> is_space x = false)
      /\ m = mode /\ isTranscribing = false /\ isRecording = false
      /\ (mode = literal -> hasAudioBlob = true))
  /\ (trim concern = [] ->
      handleSubmit mode concern hasAudioBlob isTranscribing isRecording = None).
Proof.
  unfold handleSubmit. split.
  - intros c m b.
    destruct isTranscribing, isRecording; cbn [negb andb]; try discriminate.
    destruct (trim_ends concern) as [Hh Hl].
    destruct mode; cbn [orb andb].
    + destruct (nonempty (trim concern)) eqn:En; [|discriminate].
      intros [= <- <- <-].
      repeat split; try assumption; try discriminate.
      * now destruct (trim concern).
      * now apply trim_fixed.
    + destruct (nonempty (trim concern)) eqn:En; cbn [andb]; [|discriminate].
      destruct hasAudioBlob; [|discriminate].
      intros [= <- <- <-].
      repeat split; try assumption.
      * now destruct (trim concern).
      * now apply trim_fixed.
  - intros ->. cbn [nonempty andb orb].
    destruct mode; now rewrite andb_false_r.
Qed.

Lemma submit_guard_witness :
  lit "so it goes" = trim (lit "  so it goes ")
  /\ lit "so it goes" <> [] /\ trim (lit "so it goes") = lit "so it goes".
Proof.
  destruct (proj1 (submit_guard summarize (lit "  so it goes ") false false false)
              (lit "so it goes") summarize false eq_refl)
    as (H1 & H2 & H3 & _).
  exact (conj H1 (conj H2 H3)).
Defined.

(** X23.  Pacing of the preview timeline: the first word starts at time
    zero, there is one start time per word, and each following word starts
    one delay after its predecessor, the delay of the predecessor being
    625 ms after a full stop, exclamation or question mark, 450 ms after a
    comma and 250 ms otherwise; hence the start times strictly increase. *)
Theorem preview_pacing (allWords : list ParsedWord) :
  List.length (summaryWordTimings allWords) = List.length allWords
  /\ (forall a, hd_error (summaryWordTimings allWords) = Some a -> a = 0)
  /\ (forall i wd a b,
        nth_error allWords i = Some wd ->
        nth_error (summaryWordTimings allWords) i = Some a ->
        nth_error (summaryWordTimings allWords) (S i) = Some b ->
        b = a + wordDelay wd)
  /\ (forall wd, wordDelay wd == 625 \/ wordDelay wd == 450
                 \/ wordDelay wd == 250)
  /\ StronglySorted Qlt (summaryWordTimings allWords).
Proof.
  rewrite summaryWordTimings_prefix.
  assert (Hlen : forall ws c, List.length (prefixTimes c ws) = List.length ws).
  { induction ws as [|x t IH]; intros c; cbn; [reflexivity|]. now rewrite IH. }
  assert (Hgap : forall ws c i wd a b,
    nth_error ws i = Some wd -> nth_error (prefixTimes c ws) i = Some a ->
    nth_error (prefixTimes c ws) (S i) = Some b -> b = a + wordDelay wd).
  { induction ws as [|x t IH]; intros c i wd a b Hw Ha Hb;
      [destruct i; discriminate|].
    destruct i as [|j].
    - cbn in Hw, Ha. injection Hw as <-. injection Ha as <-.
      cbn [prefixTimes nth_error] in Hb. destruct t; [discriminate|].
      cbn in Hb. now injection Hb as <-.
    - cbn [prefixTimes nth_error] in Ha, Hb. cbn in Hw.
      exact (IH _ _ _ _ _ Hw Ha Hb). }
  assert (Hdelay : forall wd, wordDelay wd == 625 \/ wordDelay wd == 450
                              \/ wordDelay wd == 250).
  { intros wd. unfold wordDelay.
    destruct (_ || _); [left; reflexivity|].
    destruct (endsWithLit _ _); [right; left|right; right]; reflexivity. }
  assert (Hpos : forall wd, 0 < wordDelay wd).
  { intros wd. destruct (Hdelay wd) as [H|[H|H]]; rewrite H; reflexivity. }
  assert (Hsorted : forall ws c, StronglySorted Qlt (prefixTimes c ws)).
  { induction ws as [|x t IH]; intros c; cbn [prefixTimes]; constructor;
      [apply IH|].
    eapply Forall_impl; [|apply (prefixTimes_lower (c + wordDelay x) t)].
    intros q Hq. cbv beta in Hq. pose proof (Hpos x). lra. }
  split; [apply Hlen|]. split.
  - destruct allWords; cbn; [discriminate|now intros a [= <-]].
  - split; [apply Hgap|]. split; [exact Hdelay|apply Hsorted].
Qed.
